(** * Podcast catalogue crawler ([spotify_api.py]): model and properties

    A shallow embedding of the scraper: Python values as an inductive type,
    the two SQLite tables as lists of rows, the Spotify client as a state
    machine supplied by the environment, and every function of the module
    as a state-and-exception passing function over a [world]. *)

From Stdlib Require Import String Ascii List ZArith Bool Lia Sorted Permutation.
Import ListNotations.

Local Open Scope string_scope.
Local Open Scope list_scope.
Local Open Scope Z_scope.

(** ** Python values, exceptions *)

Local Set Warnings "-register-all".

(** The JSON-shaped values the search endpoint returns and the scraper
    passes around.  A [dict] keeps its keys in insertion order, as Python
    does; its keys are strings, as in every object decoded from JSON.
    Floating-point numbers are left out: no field the scraper reads is
    one. *)
Inductive pyval : Type :=
| PNone
| PBool (b : bool)
| PInt (z : Z)
| PStr (s : string)
| PList (l : list pyval)
| PDict (d : list (string * pyval)).

Definition dict : Type := list (string * pyval).

(** Subclasses of [Exception] that the module can meet.  The first two are
    what the client raises; the others come from the interpreter and from
    [sqlite3]. *)
Inductive exn : Type :=
| SpotifyException (http_status : Z) (msg : string)
| RequestException (msg : string)
| TypeError
| AttributeError
| IndexError
| KeyError
| OverflowError
| SqliteError.

Inductive result (A : Type) : Type :=
| Ok (a : A)
| Raise (e : exn).
Arguments Ok {A} a.
Arguments Raise {A} e.

Definition rbind {A B} (r : result A) (k : A -> result B) : result B :=
  match r with
  | Ok a => k a
  | Raise e => Raise e
  end.

Notation "x <- r ;; k" := (rbind r (fun x => k))
  (at level 61, r at next level, right associativity).

Definition is_ok {A} (r : result A) : bool :=
  match r with Ok _ => true | Raise _ => false end.

(** [d.get(k, default)] on a dict. *)
Fixpoint lookup (k : string) (d : dict) : option pyval :=
  match d with
  | [] => None
  | (k', v) :: d' => if String.eqb k' k then Some v else lookup k d'
  end.

Definition get (d : dict) (k : string) (default : pyval) : pyval :=
  match lookup k d with
  | Some v => v
  | None => default
  end.

(** [v.get(k, default)] on an arbitrary value: only a dict has [get]. *)
Definition attr_get (v : pyval) (k : string) (default : pyval) : result pyval :=
  match v with
  | PDict d => Ok (get d k default)
  | _ => Raise AttributeError
  end.

(** Truth value, as [if v] and [not v] use it. *)
Definition truthy (v : pyval) : bool :=
  match v with
  | PNone => false
  | PBool b => b
  | PInt z => negb (z =? 0)
  | PStr s => negb (String.eqb s EmptyString)
  | PList l => match l with [] => false | _ :: _ => true end
  | PDict d => match d with [] => false | _ :: _ => true end
  end.

(** Iterating a string yields its one-character strings. *)
Definition chars (s : string) : list string :=
  map (fun c => String c EmptyString) (list_ascii_of_string s).

(** [for x in v]: lists, strings (characters) and dicts (keys) iterate. *)
Definition iter (v : pyval) : result (list pyval) :=
  match v with
  | PList l => Ok l
  | PStr s => Ok (map PStr (chars s))
  | PDict d => Ok (map (fun kv => PStr (fst kv)) d)
  | _ => Raise TypeError
  end.

Fixpoint strings_of (items : list pyval) : result (list string) :=
  match items with
  | [] => Ok []
  | PStr s :: rest => l <- strings_of rest ;; Ok (s :: l)
  | _ :: _ => Raise TypeError
  end.

(** [sep.join(v)]: [v] must iterate over strings. *)
Definition join (sep : string) (v : pyval) : result string :=
  items <- iter v ;;
  l <- strings_of items ;;
  Ok (String.concat sep l).

(** [v[0]].  A dict decoded from JSON has no integer key. *)
Definition subscript0 (v : pyval) : result pyval :=
  match v with
  | PList (x :: _) => Ok x
  | PList [] => Raise IndexError
  | PStr (String c _) => Ok (PStr (String c EmptyString))
  | PStr EmptyString => Raise IndexError
  | PDict _ => Raise KeyError
  | _ => Raise TypeError
  end.

(** ** itertools.product and generate_prefixes *)

(** [itertools.product] over a list of pools, as its documentation defines
    it: the result starts as the list holding the empty tuple, and each pool
    in turn replaces it by [x+[y] for x in result for y in pool]. *)
Definition product_step {A} (res : list (list A)) (pool : list A) : list (list A) :=
  flat_map (fun x => map (fun y => x ++ [y]) pool) res.

Definition product {A} (pools : list (list A)) : list (list A) :=
  fold_left product_step pools [[]].

Definition alphabet : string := "abcdefghijklmnopqrstuvwxyz".

(** Every tuple of [itertools.product(alphabet, repeat=3)], joined on the
    empty string. *)
Definition generate_prefixes : list string :=
  map (String.concat EmptyString) (product (repeat (chars alphabet) 3)).

(** Python compares strings by code point, lexicographically. *)
Definition str_lt (s t : string) : Prop := String.compare s t = Lt.

Definition is_lower (c : ascii) : bool :=
  ((97 <=? Z.of_N (N_of_ascii c)) && (Z.of_N (N_of_ascii c) <=? 122))%bool.

Definition lowercase3 (s : string) : bool :=
  ((Nat.eqb (String.length s) 3) && forallb is_lower (list_ascii_of_string s))%bool.

Fixpoint ascending (l : list string) : bool :=
  match l with
  | [] => true
  | s :: rest =>
      match rest with
      | [] => true
      | t :: _ => (String.ltb s t && ascending rest)%bool
      end
  end.

(** ** The SQLite database *)

(** A value stored in a column. *)
Inductive sqlval : Type :=
| SNull
| SInt (z : Z)
| SText (s : string).

(** How [sqlite3] binds a Python value to a [?] placeholder: [None], [bool],
    [int] (64-bit) and [str] are supported; a list or a dict is not. *)
Definition bind_param (v : pyval) : result sqlval :=
  match v with
  | PNone => Ok SNull
  | PBool b => Ok (SInt (if b then 1 else 0))
  | PInt z =>
      if ((- 2 ^ 63 <=? z) && (z <? 2 ^ 63))%bool then Ok (SInt z)
      else Raise OverflowError
  | PStr s => Ok (SText s)
  | PList _ | PDict _ => Raise SqliteError
  end.

Definition sql_truthy (v : sqlval) : bool :=
  match v with
  | SNull => false
  | SInt z => negb (z =? 0)
  | SText s => negb (String.eqb s EmptyString)
  end.

(** Table [podcasts], one field per column of [CREATE TABLE podcasts]. *)
Module Podcast.
Record row : Type := {
  id : sqlval;
  name : sqlval;
  description : sqlval;
  publisher : sqlval;
  total_episodes : sqlval;
  explicit : sqlval;
  media_type : sqlval;
  available_markets : sqlval;
  languages : sqlval;
  image_url : sqlval;
  external_url : sqlval;
  href : sqlval;
  recorded_countries : sqlval;
  market : sqlval
}.
End Podcast.

(** Table [query_progress]. *)
Module QueryProgress.
Record row : Type := {
  query : string;
  completed : sqlval
}.
End QueryProgress.

(** A table is the list of its rows, oldest first. *)
Record database : Type := {
  podcasts : list Podcast.row;
  query_progress : list QueryProgress.row
}.

(** Two keys collide under [PRIMARY KEY] when they are equal and not NULL:
    SQLite lets a [TEXT PRIMARY KEY] column hold NULL, and NULLs never
    collide. *)
Definition same_key (a b : sqlval) : bool :=
  match a, b with
  | SInt x, SInt y => x =? y
  | SText s, SText t => String.eqb s t
  | _, _ => false
  end.

(** [INSERT OR REPLACE INTO podcasts ...]: the rows that collide with the
    new one on the primary key are deleted, then the new row is inserted. *)
Definition replace_podcast (r : Podcast.row) (t : list Podcast.row) : list Podcast.row :=
  filter (fun r' => negb (same_key (Podcast.id r') (Podcast.id r))) t ++ [r].

(** [INSERT OR REPLACE INTO query_progress (query, completed) ...] *)
Definition replace_progress (r : QueryProgress.row) (t : list QueryProgress.row)
  : list QueryProgress.row :=
  filter (fun r' => negb (String.eqb (QueryProgress.query r') (QueryProgress.query r))) t
  ++ [r].

(** [SELECT completed FROM query_progress WHERE query = ?] then
    [fetchone()]: the first matching row, if any. *)
Definition select_completed (q : string) (t : list QueryProgress.row) : option sqlval :=
  match find (fun r => String.eqb (QueryProgress.query r) q) t with
  | Some r => Some (QueryProgress.completed r)
  | None => None
  end.

(** ** The world the scraper runs in *)

(** Keyword arguments of [spotify_client.search]. *)
Record search_args : Type := {
  arg_q : string;
  arg_type : string;
  arg_market : string;
  arg_limit : Z;
  arg_offset : Z
}.

(** Calls that cross a component boundary, in the order they happen. *)
Inductive event : Type :=
| EvFetch (query : string) (offset : Z)      (* process_query calls fetch_data *)
| EvSearch (args : search_args)              (* fetch_data calls the client *)
| EvSave (podcast_data : dict)               (* save_podcast *)
| EvCheck (query : string)                   (* is_query_completed *)
| EvMark (query : string).                   (* mark_query_completed *)

Section Scraper.

(** The Spotify client is an external collaborator: any state machine
    answering a search with a page or with an exception. *)
Context {CS : Type}.
Variable search : CS -> search_args -> result pyval * CS.

(** [io_faults] schedules storage failures: each SQLite transaction
    consumes the head, and fails when it is [true]; an empty schedule means
    the storage works. *)
Record world : Type := {
  client : CS;
  db : database;
  io_faults : list bool;
  trace : list event
}.

(** A Python function: it returns or raises, and changes the world either
    way. *)
Definition M (A : Type) : Type := world -> result A * world.

Definition log (e : event) (w : world) : world :=
  {| client := client w; db := db w; io_faults := io_faults w;
     trace := trace w ++ [e] |}.

(** [with sqlite3.connect(...) as conn: ...; conn.commit()]: the statement
    runs on the database and is committed, unless the storage fails or the
    body raises, and then the database is left as it was. *)
Definition transaction {A} (body : database -> result (A * database)) : M A :=
  fun w =>
    match io_faults w with
    | true :: rest =>
        (Raise SqliteError,
         {| client := client w; db := db w; io_faults := rest; trace := trace w |})
    | faults =>
        let w' := {| client := client w; db := db w; io_faults := tl faults;
                     trace := trace w |} in
        match body (db w) with
        | Raise e => (Raise e, w')
        | Ok (a, db') =>
            (Ok a, {| client := client w; db := db'; io_faults := tl faults;
                      trace := trace w |})
        end
    end.

(** ** DatabaseManager *)

(** [", ".join(d.get(k, [])) if d.get(k) else None] *)
Definition joined_or_none (d : dict) (k : string) : result pyval :=
  if truthy (get d k PNone)
  then s <- join ", " (get d k (PList [])) ;; Ok (PStr s)
  else Ok PNone.

(** The tuple of values [save_podcast] passes to [execute], evaluated left
    to right. *)
Definition podcast_params (podcast_data : dict) : result (list pyval) :=
  let p_id := get podcast_data "id" PNone in
  let p_name := get podcast_data "name" PNone in
  let p_description := get podcast_data "description" PNone in
  let p_publisher := get podcast_data "publisher" PNone in
  let p_total_episodes := get podcast_data "total_episodes" PNone in
  let p_explicit := get podcast_data "explicit" PNone in
  let p_media_type := get podcast_data "media_type" PNone in
  p_available_markets <- joined_or_none podcast_data "available_markets" ;;
  p_languages <- joined_or_none podcast_data "languages" ;;
  image <- subscript0 (get podcast_data "images" (PList [PDict []])) ;;
  p_image_url <- attr_get image "url" PNone ;;
  p_external_url <-
    attr_get (get podcast_data "external_urls" (PDict [])) "spotify" PNone ;;
  let p_href := get podcast_data "href" PNone in
  p_recorded_countries <- joined_or_none podcast_data "available_markets" ;;
  let p_market := get podcast_data "market" (PStr "US") in
  Ok [p_id; p_name; p_description; p_publisher; p_total_episodes; p_explicit;
      p_media_type; p_available_markets; p_languages; p_image_url;
      p_external_url; p_href; p_recorded_countries; p_market].

Fixpoint bind_params (l : list pyval) : result (list sqlval) :=
  match l with
  | [] => Ok []
  | v :: rest => x <- bind_param v ;; xs <- bind_params rest ;; Ok (x :: xs)
  end.

(** The row of the [INSERT]: parameters bound to the fourteen columns in
    the order the statement lists them. *)
Definition podcast_row (podcast_data : dict) : result Podcast.row :=
  params <- podcast_params podcast_data ;;
  vals <- bind_params params ;;
  match vals with
  | [c1; c2; c3; c4; c5; c6; c7; c8; c9; c10; c11; c12; c13; c14] =>
      Ok {| Podcast.id := c1; Podcast.name := c2; Podcast.description := c3;
            Podcast.publisher := c4; Podcast.total_episodes := c5;
            Podcast.explicit := c6; Podcast.media_type := c7;
            Podcast.available_markets := c8; Podcast.languages := c9;
            Podcast.image_url := c10; Podcast.external_url := c11;
            Podcast.href := c12; Podcast.recorded_countries := c13;
            Podcast.market := c14 |}
  | _ => Raise SqliteError
  end.

Definition save_podcast (podcast_data : dict) : M unit :=
  fun w =>
    transaction
      (fun d =>
         r <- podcast_row podcast_data ;;
         Ok (tt, {| podcasts := replace_podcast r (podcasts d);
                    query_progress := query_progress d |}))
      (log (EvSave podcast_data) w).

(** [bool(result and result[0])] on the fetched row. *)
Definition is_query_completed (query : string) : M bool :=
  fun w =>
    transaction
      (fun d =>
         let completed :=
           match select_completed query (query_progress d) with
           | Some flag => sql_truthy flag
           | None => false
           end in
         Ok (completed, d))
      (log (EvCheck query) w).

Definition mark_query_completed (query : string) : M unit :=
  fun w =>
    transaction
      (fun d =>
         Ok (tt, {| podcasts := podcasts d;
                    query_progress :=
                      replace_progress
                        {| QueryProgress.query := query;
                           QueryProgress.completed := SInt 1 |}
                        (query_progress d) |}))
      (log (EvMark query) w).

(** ** fetch_data *)

(** Modelled from the spec: the retry loop of [backoff.on_exception], which
    belongs to the external [backoff] package and is not part of the
    sources.  The target is called; an exception is retried after a wait
    until [max_tries] calls have been made, and the exception of the last
    call is then raised to the caller.  The waits ([backoff.expo]) change
    nothing in the world.  [retries] is [max_tries - 1]. *)
Fixpoint retry {A} (retries : nat) (target : M A) : M A :=
  fun w =>
    match target w with
    | (Ok a, w') => (Ok a, w')
    | (Raise e, w') =>
        match retries with
        | O => (Raise e, w')
        | S k => retry k target w'
        end
    end.

Definition on_exception {A} (max_tries : nat) (target : M A) : M A :=
  retry (Nat.pred max_tries) target.

(** The body of [fetch_data]: one call of the client. *)
Definition search_call (query : string) (offset limit : Z) : M pyval :=
  fun w =>
    let args := {| arg_q := query; arg_type := "show"; arg_market := "US";
                   arg_limit := limit; arg_offset := offset |} in
    let (r, c) := search (client w) args in
    (r, {| client := c; db := db w; io_faults := io_faults w;
           trace := trace w ++ [EvSearch args] |}).

(** [fetch_data] under its decorator, [max_tries=5]. *)
Definition fetch_data (query : string) (offset limit : Z) : M pyval :=
  on_exception 5 (search_call query offset limit).

(** ** process_query *)

(** The dict literal built for each show. *)
Definition podcast_data_of (show : pyval) : result dict :=
  v_id <- attr_get show "id" PNone ;;
  v_name <- attr_get show "name" PNone ;;
  v_description <- attr_get show "description" PNone ;;
  v_publisher <- attr_get show "publisher" PNone ;;
  v_total_episodes <- attr_get show "total_episodes" PNone ;;
  v_explicit <- attr_get show "explicit" PNone ;;
  v_media_type <- attr_get show "media_type" PNone ;;
  v_available_markets <- attr_get show "available_markets" PNone ;;
  v_languages <- attr_get show "languages" PNone ;;
  v_images <- attr_get show "images" PNone ;;
  v_external_urls <- attr_get show "external_urls" PNone ;;
  v_href <- attr_get show "href" PNone ;;
  Ok [("id", v_id); ("name", v_name); ("description", v_description);
      ("publisher", v_publisher); ("total_episodes", v_total_episodes);
      ("explicit", v_explicit); ("media_type", v_media_type);
      ("available_markets", v_available_markets); ("languages", v_languages);
      ("images", v_images); ("external_urls", v_external_urls);
      ("href", v_href); ("market", PStr "US")].

(** Where in the loop body an exception was raised. *)
Inductive stage : Type :=
| Fetching      (* fetch_data, after its retries *)
| Reading       (* taking the items out of the results, starting the for *)
| Building      (* the dict literal of a show *)
| Saving.       (* save_podcast *)

(** How the [while] loop was left. *)
Inductive loop_exit : Type :=
| NoShows                             (* if not shows: break *)
| MaxOffset                           (* the condition offset < 1000 failed *)
| Caught (s : stage) (e : exn)        (* except Exception: break *)
| OutOfFuel.

(** [for show in shows: ...; total_podcasts += 1].  An exception leaves the
    loop with the count reached so far. *)
Fixpoint for_shows (shows : list pyval) (total_podcasts : Z) (w : world)
  : option (stage * exn) * Z * world :=
  match shows with
  | [] => (None, total_podcasts, w)
  | show :: rest =>
      match podcast_data_of show with
      | Raise e => (Some (Building, e), total_podcasts, w)
      | Ok podcast_data =>
          match save_podcast podcast_data w with
          | (Raise e, w') => (Some (Saving, e), total_podcasts, w')
          | (Ok _, w') => for_shows rest (total_podcasts + 1) w'
          end
      end
  end.

(** [results.get("shows", {}).get("items", [])] *)
Definition shows_of (results : pyval) : result pyval :=
  shows <- attr_get results "shows" (PDict []) ;;
  attr_get shows "items" (PList []).

Definition limit : Z := 50.

(** The [while offset < 1000] loop, from the state [(offset,
    total_podcasts)].  [fuel] bounds the number of times the condition is
    evaluated. *)
Fixpoint while_loop (fuel : nat) (query : string) (offset total_podcasts : Z)
  (w : world) : loop_exit * Z * Z * world :=
  match fuel with
  | O => (OutOfFuel, offset, total_podcasts, w)
  | S fuel' =>
      if offset <? 1000 then
        match fetch_data query offset limit (log (EvFetch query offset) w) with
        | (Raise e, w1) => (Caught Fetching e, offset, total_podcasts, w1)
        | (Ok results, w1) =>
            match shows_of results with
            | Raise e => (Caught Reading e, offset, total_podcasts, w1)
            | Ok shows =>
                if negb (truthy shows) then (NoShows, offset, total_podcasts, w1)
                else
                  match iter shows with
                  | Raise e => (Caught Reading e, offset, total_podcasts, w1)
                  | Ok items =>
                      match for_shows items total_podcasts w1 with
                      | (Some (s, e), total', w2) =>
                          (Caught s e, offset, total', w2)
                      | (None, total', w2) =>
                          while_loop fuel' query (offset + limit) total' w2
                      end
                  end
            end
        end
      else (MaxOffset, offset, total_podcasts, w)
  end.

(** Enough fuel for every run: the condition is evaluated at most 21
    times (see [while_loop_fuel]). *)
Definition loop_fuel : nat := 21.

Definition process_query (query : string) : M Z :=
  fun w =>
    let '(_, _, total_podcasts, w1) := while_loop loop_fuel query 0 0 w in
    match mark_query_completed query w1 with
    | (Raise e, w2) => (Raise e, w2)
    | (Ok _, w2) => (Ok total_podcasts, w2)
    end.

(** ** main *)

(** [list(executor.map(lambda q: process_query(q, ...), queries))].  The
    five workers are modelled by the schedule that runs the queries one
    after the other in submission order.  The results are collected in that
    order; when a task raises, [map] cancels the tasks that have not
    started and the exception reaches [main]. *)
Fixpoint executor_map (queries : list string) (w : world)
  : list (result Z) * world :=
  match queries with
  | [] => ([], w)
  | q :: rest =>
      match process_query q w with
      | (Raise e, w1) => ([Raise e], w1)
      | (Ok n, w1) =>
          let (rs, w2) := executor_map rest w1 in
          (Ok n :: rs, w2)
      end
  end.

(** [sum(results)], or the exception that ended the list. *)
Fixpoint sum_results (rs : list (result Z)) : result Z :=
  match rs with
  | [] => Ok 0
  | Ok n :: rest => s <- sum_results rest ;; Ok (n + s)
  | Raise e :: _ => Raise e
  end.

(** The part of [main] after the collaborators are built: the queries are
    mapped over the pool and the counts added up. *)
Definition run (queries : list string) : M Z :=
  fun w =>
    let (rs, w') := executor_map queries w in
    (sum_results rs, w').

Definition main : M Z := run generate_prefixes.

End Scraper.

(** ** Vocabulary of the properties *)

(** Projections of a trace. *)
Fixpoint fetches (evs : list event) : list (string * Z) :=
  match evs with
  | [] => []
  | EvFetch q o :: rest => (q, o) :: fetches rest
  | _ :: rest => fetches rest
  end.

Fixpoint searches (evs : list event) : list search_args :=
  match evs with
  | [] => []
  | EvSearch a :: rest => a :: searches rest
  | _ :: rest => searches rest
  end.

Fixpoint marks (evs : list event) : list string :=
  match evs with
  | [] => []
  | EvMark q :: rest => q :: marks rest
  | _ :: rest => marks rest
  end.

Fixpoint checks (evs : list event) : list string :=
  match evs with
  | [] => []
  | EvCheck q :: rest => q :: checks rest
  | _ :: rest => checks rest
  end.

(** The offsets a query is fetched at when its first [k] pages are asked
    for: 0, 50, ... *)
Definition page_offsets (q : string) (offset : Z) (k : nat) : list (string * Z) :=
  map (fun i => (q, offset + limit * Z.of_nat i)) (seq 0 k).

(** The primary key of [query_progress] holds in a ledger. *)
Definition ledger_ok (t : list QueryProgress.row) : Prop :=
  NoDup (map QueryProgress.query t).


Definition sqlval_eqb (a b : sqlval) : bool :=
  match a, b with
  | SNull, SNull => true
  | SInt x, SInt y => x =? y
  | SText s, SText t => String.eqb s t
  | _, _ => false
  end.

(** The rows of [podcasts] stored under an identifier. *)
Definition rows_with_id (k : sqlval) (t : list Podcast.row) : list Podcast.row :=
  filter (fun r => sqlval_eqb (Podcast.id r) k) t.

(** A show that [process_query] can turn into a row. *)
Definition persistable (show : pyval) : bool :=
  match podcast_data_of show with
  | Ok d => is_ok (podcast_row d)
  | Raise _ => false
  end.




(** *** Stubs of the client *)

(** A stub that fails [n] times, then succeeds; its state counts the calls
    it has received, and [failure i] is what call [i] raises. *)
Definition flaky (n : nat) (failure : nat -> exn) (page : pyval)
  : nat -> search_args -> result pyval * nat :=
  fun calls _ =>
    (if (calls <? n)%nat then Raise (failure calls) else Ok page, S calls).

Definition page_of (items : list pyval) : pyval :=
  PDict [("shows", PDict [("items", PList items)])].

(** A stateless stub answering [page] at every offset up to 950 and an
    empty page beyond. *)
Definition until_950 (page : pyval) : unit -> search_args -> result pyval * unit :=
  fun c a => (Ok (if arg_offset a <=? 950 then page else page_of []), c).


(** A stub with one page for one query, and empty pages otherwise. *)
Definition one_page (q : string) (page : pyval)
  : unit -> search_args -> result pyval * unit :=
  fun c a =>
    (Ok (if (String.eqb (arg_q a) q && (arg_offset a =? 0))%bool
         then page else page_of []), c).

(** *** Sample data *)

Definition complete_show (i n : string) : pyval :=
  PDict [("id", PStr i); ("name", PStr n);
         ("available_markets", PList [PStr "US"; PStr "CA"]);
         ("images", PList [PDict [("url", PStr "https://i.example/1")]]);
         ("external_urls", PDict [("spotify", PStr "https://s.example/1")])].

(** A show with an identifier and a name and nothing else. *)
Definition bare_show (i n : string) : pyval :=
  PDict [("id", PStr i); ("name", PStr n)].

(** A row as [save_podcast] stores it for a show with an identifier and a
    name only. *)
Definition stored_row (i n : string) : Podcast.row :=
  {| Podcast.id := SText i; Podcast.name := SText n;
     Podcast.description := SNull; Podcast.publisher := SNull;
     Podcast.total_episodes := SNull; Podcast.explicit := SNull;
     Podcast.media_type := SNull; Podcast.available_markets := SNull;
     Podcast.languages := SNull; Podcast.image_url := SNull;
     Podcast.external_url := SNull; Podcast.href := SNull;
     Podcast.recorded_countries := SNull; Podcast.market := SText "US" |}.

(** The dict [process_query] builds for a show (empty when it cannot). *)
Definition data_of (show : pyval) : dict :=
  match podcast_data_of show with
  | Ok d => d
  | Raise _ => []
  end.

Definition empty_db : database := {| podcasts := []; query_progress := [] |}.

Definition fresh {CS} (c : CS) : @world CS :=
  {| client := c; db := empty_db; io_faults := []; trace := [] |}.

Definition args_of (q : string) (offset : Z) : search_args :=
  {| arg_q := q; arg_type := "show"; arg_market := "US";
     arg_limit := limit; arg_offset := offset |}.

(** The state a restarted crawl finds: the query abc is marked complete and
    one of its shows is stored. *)
Definition resumed : @world unit :=
  {| client := tt;
     db := {| podcasts := [stored_row "show1" "first name"];
              query_progress := [{| QueryProgress.query := "abc";
                                    QueryProgress.completed := SInt 1 |}] |};
     io_faults := [];
     trace := [] |}.


(** *** Further vocabulary *)

Fixpoint saves (evs : list event) : list dict :=
  match evs with
  | [] => []
  | EvSave d :: rest => d :: saves rest
  | _ :: rest => saves rest
  end.

(** The outcomes of [k] successive calls of the client with the same
    arguments, and the state the client is left in. *)
Fixpoint call_outcomes {CS} (search : CS -> search_args -> result pyval * CS)
  (c : CS) (a : search_args) (k : nat) : list (result pyval) * CS :=
  match k with
  | O => ([], c)
  | S k' =>
      let (r, c1) := search c a in
      let (rs, c2) := call_outcomes search c1 a k' in
      (r :: rs, c2)
  end.

(** The identifiers of a table that are not NULL, in row order. *)
Definition keys (t : list Podcast.row) : list sqlval :=
  filter (fun k => negb (sqlval_eqb k SNull)) (map Podcast.id t).

(** The primary key of [podcasts] holds in a table. *)
Definition podcasts_ok (t : list Podcast.row) : Prop := NoDup (keys t).

Definition database_ok (d : database) : Prop :=
  podcasts_ok (podcasts d) /\ ledger_ok (query_progress d).

(** What [is_query_completed] answers on a database. *)
Definition complete_in (q : string) (d : database) : bool :=
  match select_completed q (query_progress d) with
  | Some flag => sql_truthy flag
  | None => false
  end.

(** A client that is never reachable: every call raises, whatever its
    state, and the state counts the calls. *)
Definition unreachable (e : exn) : nat -> search_args -> result pyval * nat :=
  fun calls _ => (Raise e, S calls).

(** The number of exceptions a loop exit owes to a failed save. *)
Definition failed_saves (ex : loop_exit) : Z :=
  match ex with
  | Caught Saving _ => 1
  | _ => 0
  end.



(** Two worlds that differ in the completion ledger at most. *)
Definition same_but_ledger {CS} (w1 w2 : @world CS) : Prop :=
  client w1 = client w2
  /\ podcasts (db w1) = podcasts (db w2)
  /\ io_faults w1 = io_faults w2
  /\ trace w1 = trace w2.

(** [resumed] with its ledger wiped. *)
Definition resumed_unmarked : @world unit :=
  {| client := tt;
     db := {| podcasts := podcasts (db resumed); query_progress := [] |};
     io_faults := [];
     trace := [] |}.
(** * Properties *)

(** ** generate_prefixes *)

Lemma product_step_length {A} (pool : list A) (res : list (list A)) :
  length (product_step res pool) = (length res * length pool)%nat.
Proof.
  unfold product_step.
  induction res as [|x res IH]; simpl.
  - reflexivity.
  - rewrite length_app, length_map, IH. reflexivity.
Qed.

Lemma product_repeat_length {A} (pool : list A) (n : nat) (res : list (list A)) :
  length (fold_left product_step (repeat pool n) res)
  = (length res * length pool ^ n)%nat.
Proof.
  revert res.
  induction n as [|n IH]; intros res; simpl.
  - lia.
  - rewrite IH, product_step_length. lia.
Qed.

Lemma ascii_compare_lt (a b : ascii) :
  Ascii.compare a b = Lt <-> (N_of_ascii a < N_of_ascii b)%N.
Proof. unfold Ascii.compare. apply N.compare_lt_iff. Qed.

Lemma ascii_compare_refl (a : ascii) : Ascii.compare a a = Eq.
Proof. unfold Ascii.compare. apply N.compare_refl. Qed.

Lemma str_lt_irrefl (s : string) : ~ str_lt s s.
Proof.
  unfold str_lt.
  induction s as [|a s IH]; simpl.
  - discriminate.
  - rewrite ascii_compare_refl. exact IH.
Qed.

Lemma str_lt_trans (s t u : string) : str_lt s t -> str_lt t u -> str_lt s u.
Proof.
  unfold str_lt.
  revert t u.
  induction s as [|a s IH]; intros [|b t] [|c u]; simpl; try discriminate; auto.
  destruct (Ascii.compare a b) eqn:Hab; try discriminate;
    destruct (Ascii.compare b c) eqn:Hbc; try discriminate; intros Hst Htu.
  - apply Ascii.compare_eq_iff in Hab, Hbc. subst.
    rewrite ascii_compare_refl. eauto.
  - apply Ascii.compare_eq_iff in Hab. subst. rewrite Hbc. reflexivity.
  - apply Ascii.compare_eq_iff in Hbc. subst. rewrite Hab. reflexivity.
  - pose proof (proj1 (ascii_compare_lt a b) Hab) as Hlt1.
    pose proof (proj1 (ascii_compare_lt b c) Hbc) as Hlt2.
    assert (H : Ascii.compare a c = Lt) by (apply ascii_compare_lt; lia).
    rewrite H. reflexivity.
Qed.

Lemma ascending_Sorted (l : list string) :
  ascending l = true -> Sorted str_lt l.
Proof.
  induction l as [|s [|t rest] IH]; intros H.
  - constructor.
  - repeat constructor.
  - change (String.ltb s t && ascending (t :: rest) = true)%bool in H.
    apply andb_prop in H. destruct H as [Hst Hrest].
    constructor.
    + apply IH. exact Hrest.
    + constructor. unfold str_lt. unfold String.ltb in Hst.
      destruct (String.compare s t); congruence.
Qed.

Lemma StronglySorted_NoDup (l : list string) :
  StronglySorted str_lt l -> NoDup l.
Proof.
  induction 1 as [|s l Hl IH Hs]; constructor; auto.
  intros Hin.
  rewrite Forall_forall in Hs.
  exact (str_lt_irrefl s (Hs s Hin)).
Qed.

(** C2: [generate_prefixes] returns 26^3 = 17576 strings, each of three
    lowercase letters, without duplicates, in strictly increasing
    lexicographic order. *)
Theorem generate_prefixes_spec :
  Z.of_nat (length generate_prefixes) = 26 ^ 3
  /\ 26 ^ 3 = 17576
  /\ Forall (fun s => String.length s = 3%nat
                      /\ Forall (fun c => is_lower c = true)
                           (list_ascii_of_string s)) generate_prefixes
  /\ NoDup generate_prefixes
  /\ StronglySorted str_lt generate_prefixes.
Proof.
  assert (Hsorted : StronglySorted str_lt generate_prefixes).
  { apply Sorted_StronglySorted.
    - intros s t u. apply str_lt_trans.
    - apply ascending_Sorted. vm_compute. reflexivity. }
  split; [|split; [|split; [|split]]].
  - unfold generate_prefixes, product.
    rewrite length_map, product_repeat_length. vm_compute. reflexivity.
  - reflexivity.
  - apply Forall_forall. intros s Hs.
    assert (H : forallb lowercase3 generate_prefixes = true)
      by (vm_compute; reflexivity).
    rewrite forallb_forall in H. specialize (H s Hs).
    unfold lowercase3 in H. apply andb_prop in H. destruct H as [Hlen Hlow].
    split.
    + apply Nat.eqb_eq. exact Hlen.
    + apply Forall_forall. rewrite forallb_forall in Hlow. exact Hlow.
  - apply StronglySorted_NoDup. exact Hsorted.
  - exact Hsorted.
Qed.

(** ** What each operation does to the world *)

Lemma fetches_app (a b : list event) : fetches (a ++ b) = fetches a ++ fetches b.
Proof.
  induction a as [|[] a IH]; simpl; rewrite ?IH; reflexivity.
Qed.

Lemma searches_app (a b : list event) : searches (a ++ b) = searches a ++ searches b.
Proof.
  induction a as [|[] a IH]; simpl; rewrite ?IH; reflexivity.
Qed.

Lemma marks_app (a b : list event) : marks (a ++ b) = marks a ++ marks b.
Proof.
  induction a as [|[] a IH]; simpl; rewrite ?IH; reflexivity.
Qed.

Lemma checks_app (a b : list event) : checks (a ++ b) = checks a ++ checks b.
Proof.
  induction a as [|[] a IH]; simpl; rewrite ?IH; reflexivity.
Qed.

Section Effects.

Context {CS : Type}.
Variable search : CS -> search_args -> result pyval * CS.

Lemma transaction_frame {A} (body : database -> result (A * database))
  (w w' : @world CS) (r : result A) :
  transaction body w = (r, w') ->
  client w' = client w /\ trace w' = trace w
  /\ io_faults w' = tl (io_faults w)
  /\ match r with
     | Raise e =>
         db w' = db w
         /\ (hd false (io_faults w) = true \/ body (db w) = Raise e)
     | Ok a => hd false (io_faults w) = false /\ body (db w) = Ok (a, db w')
     end.
Proof.
  unfold transaction.
  destruct (io_faults w) as [|[|] rest] eqn:Hf;
    try destruct (body (db w)) as [[a d']|e] eqn:Hb;
    intros H; inversion H; subst; clear H; simpl; auto 10.
Qed.

Lemma transaction_works {A} (body : database -> result (A * database)) (w : @world CS) :
  hd false (io_faults w) = false ->
  transaction body w =
  match body (db w) with
  | Raise e =>
      (Raise e, {| client := client w; db := db w;
                   io_faults := tl (io_faults w); trace := trace w |})
  | Ok (a, db') =>
      (Ok a, {| client := client w; db := db';
                io_faults := tl (io_faults w); trace := trace w |})
  end.
Proof.
  unfold transaction.
  destruct (io_faults w) as [|[|] rest]; simpl; intros H;
    try discriminate; reflexivity.
Qed.

Lemma save_podcast_frame (d : dict) (w w' : @world CS) (r : result unit) :
  save_podcast d w = (r, w') ->
  client w' = client w /\ trace w' = trace w ++ [EvSave d]
  /\ io_faults w' = tl (io_faults w)
  /\ query_progress (db w') = query_progress (db w)
  /\ match r with
     | Raise e =>
         db w' = db w
         /\ (hd false (io_faults w) = true \/ podcast_row d = Raise e)
     | Ok _ =>
         hd false (io_faults w) = false
         /\ exists row, podcast_row d = Ok row
                        /\ podcasts (db w') = replace_podcast row (podcasts (db w))
     end.
Proof.
  unfold save_podcast. intros H.
  apply transaction_frame in H. simpl in H.
  destruct H as (Hc & Ht & Hf & Hr).
  repeat split; auto.
  - destruct r as [[]|e].
    + destruct Hr as [_ Hr].
      destruct (podcast_row d) as [row|e]; simpl in Hr; [|discriminate].
      injection Hr as Hdb. rewrite <- Hdb. reflexivity.
    + destruct Hr as [Hr _]. rewrite Hr. reflexivity.
  - destruct r as [[]|e].
    + destruct Hr as [Hh Hr]. split; [exact Hh|].
      destruct (podcast_row d) as [row|e]; simpl in Hr; [|discriminate].
      exists row. split; [reflexivity|].
      injection Hr as Hdb. rewrite <- Hdb. reflexivity.
    + destruct Hr as [Hdb [Hh|Hb]]; split; auto.
      right. destruct (podcast_row d) as [row|e']; simpl in Hb;
        [discriminate | congruence].
Qed.

Lemma mark_query_completed_frame (q : string) (w w' : @world CS) (r : result unit) :
  mark_query_completed q w = (r, w') ->
  client w' = client w /\ trace w' = trace w ++ [EvMark q]
  /\ io_faults w' = tl (io_faults w)
  /\ podcasts (db w') = podcasts (db w)
  /\ match r with
     | Raise e => e = SqliteError /\ hd false (io_faults w) = true /\ db w' = db w
     | Ok _ =>
         hd false (io_faults w) = false
         /\ query_progress (db w') =
            replace_progress {| QueryProgress.query := q;
                                QueryProgress.completed := SInt 1 |}
              (query_progress (db w))
     end.
Proof.
  unfold mark_query_completed, transaction.
  destruct (io_faults (log (EvMark q) w)) as [|[|] rest] eqn:Hf;
    simpl in Hf; rewrite Hf;
    intros H; inversion H; subst; clear H; simpl; auto 10.
Qed.

Lemma is_query_completed_frame (q : string) (w w' : @world CS) (r : result bool) :
  is_query_completed q w = (r, w') ->
  client w' = client w /\ trace w' = trace w ++ [EvCheck q]
  /\ io_faults w' = tl (io_faults w) /\ db w' = db w.
Proof.
  unfold is_query_completed, transaction.
  destruct (io_faults (log (EvCheck q) w)) as [|[|] rest] eqn:Hf;
    simpl in Hf; rewrite Hf;
    intros H; inversion H; subst; clear H; simpl; auto 10.
Qed.

Lemma search_call_frame (q : string) (offset lim : Z) (w w' : @world CS)
  (r : result pyval) :
  search_call search q offset lim w = (r, w') ->
  db w' = db w /\ io_faults w' = io_faults w
  /\ trace w' = trace w ++ [EvSearch {| arg_q := q; arg_type := "show";
                                         arg_market := "US"; arg_limit := lim;
                                         arg_offset := offset |}]
  /\ search (client w) {| arg_q := q; arg_type := "show"; arg_market := "US";
                          arg_limit := lim; arg_offset := offset |}
     = (r, client w').
Proof.
  unfold search_call.
  destruct (search (client w) _) as [r0 c] eqn:Hs.
  intros H. inversion H; subst; clear H. simpl. auto.
Qed.

(** A retried call makes between one and [retries + 1] calls of the
    client and nothing else. *)
Lemma retry_frame (q : string) (offset lim : Z) (retries : nat) :
  forall (w w' : @world CS) (r : result pyval),
  retry retries (search_call search q offset lim) w = (r, w') ->
  db w' = db w /\ io_faults w' = io_faults w
  /\ exists k, (1 <= k <= S retries)%nat
       /\ trace w' = trace w ++ repeat (EvSearch {| arg_q := q; arg_type := "show";
                                                    arg_market := "US";
                                                    arg_limit := lim;
                                                    arg_offset := offset |}) k
       /\ (forall e, r = Raise e -> k = S retries).
Proof.
  induction retries as [|n IH]; intros w w' r; simpl;
    destruct (search_call search q offset lim w) as [[a|e] w1] eqn:Hcall;
    apply search_call_frame in Hcall; destruct Hcall as (Hd & Hf & Ht & _).
  - intros H. inversion H; subst; clear H. repeat split; auto.
    exists 1%nat. repeat split; auto; discriminate.
  - intros H. inversion H; subst; clear H. repeat split; auto.
    exists 1%nat. repeat split; auto.
  - intros H. inversion H; subst; clear H. repeat split; auto.
    exists 1%nat. repeat split; auto; try lia; discriminate.
  - intros H. apply IH in H. destruct H as (Hd' & Hf' & k & Hk & Ht' & Hr).
    repeat split; try congruence.
    exists (S k). repeat split; try lia.
    + rewrite Ht', Ht. simpl. rewrite <- app_assoc. reflexivity.
    + intros e0 He0. rewrite (Hr e0 He0). reflexivity.
Qed.

Lemma fetch_data_frame (q : string) (offset lim : Z) (w w' : @world CS)
  (r : result pyval) :
  fetch_data search q offset lim w = (r, w') ->
  db w' = db w /\ io_faults w' = io_faults w
  /\ exists k, (1 <= k <= 5)%nat
       /\ trace w' = trace w ++ repeat (EvSearch {| arg_q := q; arg_type := "show";
                                                    arg_market := "US";
                                                    arg_limit := lim;
                                                    arg_offset := offset |}) k
       /\ (forall e, r = Raise e -> k = 5%nat).
Proof.
  unfold fetch_data, on_exception. simpl Nat.pred.
  apply retry_frame.
Qed.

End Effects.

Lemma fetches_saves (ds : list dict) : fetches (map EvSave ds) = [].
Proof. induction ds; simpl; auto. Qed.

Lemma marks_saves (ds : list dict) : marks (map EvSave ds) = [].
Proof. induction ds; simpl; auto. Qed.

Lemma checks_saves (ds : list dict) : checks (map EvSave ds) = [].
Proof. induction ds; simpl; auto. Qed.

Lemma searches_saves (ds : list dict) : searches (map EvSave ds) = [].
Proof. induction ds; simpl; auto. Qed.

Lemma fetches_searches (a : search_args) (k : nat) :
  fetches (repeat (EvSearch a) k) = [].
Proof. induction k; simpl; auto. Qed.

Lemma marks_searches (a : search_args) (k : nat) :
  marks (repeat (EvSearch a) k) = [].
Proof. induction k; simpl; auto. Qed.

Lemma checks_searches (a : search_args) (k : nat) :
  checks (repeat (EvSearch a) k) = [].
Proof. induction k; simpl; auto. Qed.

Lemma searches_searches (a : search_args) (k : nat) :
  searches (repeat (EvSearch a) k) = repeat a k.
Proof. induction k; simpl; congruence. Qed.

Lemma page_offsets_S (q : string) (offset : Z) (k : nat) :
  page_offsets q offset (S k) = (q, offset) :: page_offsets q (offset + limit) k.
Proof.
  unfold page_offsets. cbn [seq map]. f_equal.
  - f_equal. unfold limit. lia.
  - rewrite <- seq_shift, map_map. apply map_ext. intros i.
    f_equal. unfold limit. lia.
Qed.



Section Loop.

Context {CS : Type}.
Variable search : CS -> search_args -> result pyval * CS.

Lemma for_shows_frame (shows : list pyval) :
  forall (total : Z) (w w' : @world CS) (res : option (stage * exn)) (total' : Z),
  for_shows shows total w = (res, total', w') ->
  client w' = client w
  /\ query_progress (db w') = query_progress (db w)
  /\ total <= total' <= total + Z.of_nat (length shows)
  /\ (exists ds, trace w' = trace w ++ map EvSave ds)
  /\ match res with
     | Some (s, _) => s = Building \/ s = Saving
     | None => total' = total + Z.of_nat (length shows)
     end.
Proof.
  induction shows as [|show rest IH]; intros total w w' res total'.
  - simpl. intros H. inversion H; subst; clear H.
    repeat split; try lia. exists []. simpl. rewrite app_nil_r. reflexivity.
  - cbn [for_shows length]. rewrite Nat2Z.inj_succ.
    destruct (podcast_data_of show) as [d|e].
    + destruct (save_podcast d w) as [[[]|e] w1] eqn:Hsave;
        apply save_podcast_frame in Hsave;
        destruct Hsave as (Hc & Ht & Hf & Hq & Hr).
      * intros H. apply IH in H.
        destruct H as (Hc' & Hq' & Htot & (ds & Ht') & Hres).
        repeat split; try congruence; try lia.
        -- exists (d :: ds). rewrite Ht', Ht. simpl.
           rewrite <- app_assoc. reflexivity.
        -- destruct res as [[s e]|]; auto.
           rewrite Hres. lia.
      * intros H. inversion H; subst; clear H.
        repeat split; auto; try lia.
        exists [d]. exact Ht.
    + intros H. inversion H; subst; clear H.
      repeat split; auto; try lia.
      exists []. simpl. rewrite app_nil_r. reflexivity.
Qed.


(** The invariant of the pagination loop. *)
Lemma while_loop_frame (fuel : nat) (q : string) :
  forall (offset total : Z) (w w' : @world CS) (ex : loop_exit) (off' total' : Z),
  while_loop search fuel q offset total w = (ex, off', total', w') ->
  query_progress (db w') = query_progress (db w)
  /\ total <= total'
  /\ exists evs k,
       trace w' = trace w ++ evs
       /\ marks evs = [] /\ checks evs = []
       /\ fetches evs = page_offsets q offset k
       /\ (k <= fuel)%nat
       /\ (offset < 1000 -> (0 < fuel)%nat -> (1 <= k)%nat)
       /\ (k = 0%nat \/ offset + limit * (Z.of_nat k - 1) < 1000)
       /\ Forall (fun a => arg_q a = q /\ offset <= arg_offset a < 1000)
            (searches evs).
Proof.
  induction fuel as [|fuel IH]; intros offset total w w' ex off' total'.
  - simpl. intros H. inversion H; subst; clear H.
    repeat split; try lia.
    exists [], 0%nat. rewrite app_nil_r. repeat split; auto; lia.
  - cbn [while_loop].
    destruct (offset <? 1000) eqn:Hlt.
    2:{ apply Z.ltb_ge in Hlt. intros H. inversion H; subst; clear H.
        repeat split; try lia.
        exists [], 0%nat. rewrite app_nil_r. repeat split; auto; lia. }
    apply Z.ltb_lt in Hlt.
    destruct (fetch_data search q offset limit (log (EvFetch q offset) w))
      as [r w1] eqn:Hfetch.
    apply fetch_data_frame in Hfetch.
    destruct Hfetch as (Hd1 & Hf1 & k1 & Hk1 & Ht1 & _).
    simpl in Hd1, Hf1, Ht1.
    assert (Hone :
      exists evs, trace w1 = trace w ++ evs
        /\ marks evs = [] /\ checks evs = []
        /\ fetches evs = page_offsets q offset 1
        /\ Forall (fun a => arg_q a = q /\ offset <= arg_offset a < 1000)
             (searches evs)).
    { eexists. split.
      - rewrite Ht1, <- app_assoc. reflexivity.
      - rewrite marks_app, checks_app, fetches_app, searches_app.
        rewrite marks_searches, checks_searches, fetches_searches,
          searches_searches.
        simpl. repeat split; auto.
        + unfold page_offsets. simpl. do 2 f_equal. unfold limit. lia.
        + apply Forall_forall. intros a Ha. apply repeat_spec in Ha.
          subst a. simpl. split; [reflexivity|lia]. }
    destruct Hone as (evs1 & Hevs1 & Hm1 & Hc1 & Hfe1 & Hs1).
    assert (Hstop : forall ex0 total0,
      (ex0, offset, total0, w1) = (ex, off', total', w') -> total0 = total ->
      query_progress (db w') = query_progress (db w)
      /\ total <= total'
      /\ exists evs k,
           trace w' = trace w ++ evs
           /\ marks evs = [] /\ checks evs = []
           /\ fetches evs = page_offsets q offset k
           /\ (k <= S fuel)%nat
           /\ (offset < 1000 -> (0 < S fuel)%nat -> (1 <= k)%nat)
           /\ (k = 0%nat \/ offset + limit * (Z.of_nat k - 1) < 1000)
           /\ Forall (fun a => arg_q a = q /\ offset <= arg_offset a < 1000)
                (searches evs)).
    { intros ex0 total0 H Htot. inversion H; subst; clear H.
      repeat split; try congruence; try lia.
      exists evs1, 1%nat. repeat split; auto; unfold limit; lia. }
    destruct r as [results|e]; [|intros H; eapply Hstop; eauto].
    destruct (shows_of results) as [shows|e]; [|intros H; eapply Hstop; eauto].
    destruct (negb (truthy shows)); [intros H; eapply Hstop; eauto|].
    destruct (iter shows) as [items|e]; [|intros H; eapply Hstop; eauto].
    destruct (for_shows items total w1) as [[res total1] w2] eqn:Hfor.
    apply for_shows_frame in Hfor.
    destruct Hfor as (Hc2 & Hq2 & Htot2 & (ds & Ht2) & Hres2).
    destruct res as [[s e]|].
    + intros H. inversion H; subst; clear H.
      repeat split; try congruence; try lia.
      exists (evs1 ++ map EvSave ds), 1%nat.
      rewrite marks_app, checks_app, fetches_app, searches_app.
      rewrite marks_saves, checks_saves, fetches_saves, searches_saves.
      rewrite !app_nil_r.
      repeat split; auto; try (unfold limit; lia).
      rewrite Ht2, Hevs1, <- app_assoc. reflexivity.
    + intros H. apply IH in H.
      destruct H as (Hq3 & Htot3 & evs3 & k3 & Ht3 & Hm3 & Hc3 & Hfe3 & Hk3 & Hge3 & Hb3 & Hs3).
      repeat split; try congruence; try lia.
      exists (evs1 ++ map EvSave ds ++ evs3), (S k3).
      rewrite !marks_app, !checks_app, !fetches_app, !searches_app.
      rewrite marks_saves, checks_saves, fetches_saves, searches_saves.
      rewrite Hm1, Hc1, Hm3, Hc3, Hfe1, Hfe3.
      split; [rewrite Ht3, Ht2, Hevs1, <- !app_assoc; reflexivity|].
      split; [reflexivity|]. split; [reflexivity|].
      split; [rewrite !page_offsets_S; reflexivity|].
      split; [lia|]. split; [intros; lia|].
      split.
      { right. unfold limit in *. lia. }
      simpl. apply Forall_app. split; [exact Hs1|].
      eapply Forall_impl; [|exact Hs3].
      simpl. intros a [Ha1 Ha2]. unfold limit in Ha2. split; [exact Ha1|lia].
Qed.


(** More fuel than that changes nothing. *)
Lemma while_loop_fuel_irrelevant (fuel : nat) (q : string) :
  forall (offset total : Z) (w : @world CS) (extra : nat),
  (0 < fuel)%nat ->
  1000 - offset <= limit * (Z.of_nat fuel - 1) ->
  while_loop search (fuel + extra) q offset total w
  = while_loop search fuel q offset total w.
Proof.
  unfold limit.
  induction fuel as [|fuel IH]; intros offset total w extra Hpos Hfuel.
  - lia.
  - cbn [while_loop Nat.add].
    destruct (offset <? 1000) eqn:Hlt; [|reflexivity].
    destruct (fetch_data search q offset limit (log (EvFetch q offset) w))
      as [[results|e] w1]; [|reflexivity].
    destruct (shows_of results) as [shows|e]; [|reflexivity].
    destruct (negb (truthy shows)); [reflexivity|].
    destruct (iter shows) as [items|e]; [|reflexivity].
    destruct (for_shows items total w1) as [[[[s e]|] total1] w2];
      [reflexivity|].
    apply Z.ltb_lt in Hlt. apply IH; unfold limit; lia.
Qed.

End Loop.

(** ** The retrying fetcher *)

(** C3: for a stub that fails [n] times and then succeeds, [fetch_data]
    returns the page iff [n < 5]; the stub is invoked [min (n+1) 5] times,
    so at most 5 times; and when all 5 attempts fail, the exception of the
    fifth one is raised to the caller. *)
Theorem retry_bound (n : nat) (failure : nat -> exn) (page : pyval)
  (query : string) (offset lim : Z)
  (d : database) (faults : list bool) (t : list event) :
  let w := {| client := 0%nat; db := d; io_faults := faults; trace := t |} in
  let r := fst (fetch_data (flaky n failure page) query offset lim w) in
  let w' := snd (fetch_data (flaky n failure page) query offset lim w) in
  let args := {| arg_q := query; arg_type := "show"; arg_market := "US";
                 arg_limit := lim; arg_offset := offset |} in
  (r = Ok page <-> (n < 5)%nat)
  /\ client w' = Nat.min (S n) 5
  /\ trace w' = t ++ repeat (EvSearch args) (Nat.min (S n) 5)
  /\ (client w' <= 5)%nat
  /\ ((5 <= n)%nat -> r = Raise (failure 4%nat)).
Proof.
  destruct n as [|[|[|[|[|n]]]]]; cbn;
    rewrite <- ?app_assoc; cbn;
    (split; [split; intros H; try discriminate; try lia; reflexivity|]);
    (split; [reflexivity|]);
    (split; [reflexivity|]);
    (split; [lia|]);
    intros H; try lia; reflexivity.
Qed.

(** ** The pagination loop of process_query *)

Section Pagination.

Context {CS : Type}.
Variable search : CS -> search_args -> result pyval * CS.

Lemma fetch_data_first_try (q : string) (offset lim : Z) (w : @world CS)
  (results : pyval) (c' : CS) :
  search (client w) {| arg_q := q; arg_type := "show"; arg_market := "US";
                       arg_limit := lim; arg_offset := offset |}
  = (Ok results, c') ->
  fetch_data search q offset lim w
  = (Ok results,
     {| client := c'; db := db w; io_faults := io_faults w;
        trace := trace w ++ [EvSearch {| arg_q := q; arg_type := "show";
                                          arg_market := "US"; arg_limit := lim;
                                          arg_offset := offset |}] |}).
Proof.
  intros H. unfold fetch_data, on_exception. simpl.
  unfold search_call at 1. rewrite H. reflexivity.
Qed.




End Pagination.

(** ** The record store *)







(** What a row is made of, read off [podcast_row]. *)
Lemma podcast_row_inv (d : dict) (r : Podcast.row) :
  podcast_row d = Ok r ->
  exists markets,
    joined_or_none d "available_markets" = Ok markets
    /\ bind_param (get d "id" PNone) = Ok (Podcast.id r)
    /\ bind_param markets = Ok (Podcast.available_markets r)
    /\ bind_param markets = Ok (Podcast.recorded_countries r)
    /\ bind_param (get d "market" (PStr "US")) = Ok (Podcast.market r).
Proof.
  unfold podcast_row, podcast_params.
  destruct (joined_or_none d "available_markets") as [markets|e]; [|discriminate].
  destruct (joined_or_none d "languages") as [langs|e]; [|discriminate].
  cbn [rbind].
  destruct (subscript0 _) as [image|e]; [|discriminate]. cbn [rbind].
  destruct (attr_get image "url" PNone) as [url|e]; [|discriminate].
  cbn [rbind].
  destruct (attr_get _ "spotify" PNone) as [ext|e]; [|discriminate].
  cbn [rbind bind_params].
  repeat match goal with
         | |- context [bind_param ?v] =>
             destruct (bind_param v) eqn:?; cbn [rbind]; [|discriminate]
         end.
  intros H. injection H as <-. cbn. exists markets. auto.
Qed.

Lemma joined_or_none_falsy (d : dict) (k : string) :
  truthy (get d k PNone) = false -> joined_or_none d k = Ok PNone.
Proof. unfold joined_or_none. intros ->. reflexivity. Qed.

Lemma get_default (d : dict) (k : string) (v default default' : pyval) :
  get d k default = v -> truthy v = true -> truthy default = false ->
  get d k default' = v.
Proof.
  unfold get. destruct (lookup k d); auto.
  intros -> H1 H2. congruence.
Qed.

Lemma joined_or_none_list (d : dict) (k : string) (l : list pyval) (v : pyval) :
  get d k PNone = PList l -> l <> [] -> joined_or_none d k = Ok v ->
  exists strs, strings_of l = Ok strs /\ v = PStr (String.concat ", " strs).
Proof.
  intros Hget Hl. unfold joined_or_none. rewrite Hget.
  destruct l as [|x l]; [congruence|]. cbn [truthy].
  rewrite (get_default d k (PList (x :: l)) PNone (PList [])); auto.
  unfold join. cbn [iter rbind].
  destruct (strings_of (x :: l)) as [strs|e]; cbn [rbind]; [|discriminate].
  intros H. injection H as <-. exists strs. auto.
Qed.

Section Store.

Context {CS : Type}.


(** C10: in every row [save_podcast] writes, [recorded_countries] equals
    [available_markets]: NULL when the list of markets is missing or
    empty, and otherwise the markets joined with a comma and a space. *)
Theorem recorded_countries_mirror (d : dict) (w w' : @world CS) :
  save_podcast d w = (Ok tt, w') ->
  exists r,
    podcast_row d = Ok r
    /\ podcasts (db w') = replace_podcast r (podcasts (db w))
    /\ Podcast.recorded_countries r = Podcast.available_markets r
    /\ (lookup "available_markets" d = None
        \/ get d "available_markets" PNone = PNone
        \/ get d "available_markets" PNone = PList [] ->
        Podcast.available_markets r = SNull)
    /\ (forall l, get d "available_markets" PNone = PList l -> l <> [] ->
        exists strs, strings_of l = Ok strs
                     /\ Podcast.available_markets r
                        = SText (String.concat ", " strs)).
Proof.
  intros H. apply save_podcast_frame in H.
  destruct H as (_ & _ & _ & _ & _ & r & Hr & Hp).
  exists r. split; [exact Hr|]. split; [exact Hp|].
  destruct (podcast_row_inv _ _ Hr) as (markets & Hj & _ & Ha & Hc & _).
  split; [congruence|]. split.
  - intros Hmiss.
    assert (Hfalsy : truthy (get d "available_markets" PNone) = false).
    { destruct Hmiss as [Hm|[Hm|Hm]].
      - unfold get. rewrite Hm. reflexivity.
      - rewrite Hm. reflexivity.
      - rewrite Hm. reflexivity. }
    rewrite (joined_or_none_falsy _ _ Hfalsy) in Hj.
    injection Hj as <-. simpl in Ha. congruence.
  - intros l Hl Hne.
    destruct (joined_or_none_list _ _ _ _ Hl Hne Hj) as (strs & Hs & ->).
    exists strs. split; [exact Hs|]. simpl in Ha. congruence.
Qed.

End Store.

(** ** The completion ledger *)



Lemma find_replace_progress (r : QueryProgress.row) (t : list QueryProgress.row) :
  find (fun r' => String.eqb (QueryProgress.query r') (QueryProgress.query r))
    (replace_progress r t) = Some r.
Proof.
  unfold replace_progress.
  induction t as [|x t IH]; simpl.
  - rewrite String.eqb_refl. reflexivity.
  - destruct (String.eqb (QueryProgress.query x) (QueryProgress.query r)) eqn:Hx;
      simpl; rewrite ?Hx; exact IH.
Qed.

Lemma select_completed_replace (q : string) (flag : sqlval)
  (t : list QueryProgress.row) :
  select_completed q
    (replace_progress {| QueryProgress.query := q;
                         QueryProgress.completed := flag |} t) = Some flag.
Proof.
  unfold select_completed.
  pose proof (find_replace_progress
                {| QueryProgress.query := q; QueryProgress.completed := flag |} t)
    as H.
  cbn [QueryProgress.query] in H. rewrite H. reflexivity.
Qed.


(** The primary key survives an insert-or-replace. *)
Lemma replace_progress_ok (r : QueryProgress.row) (t : list QueryProgress.row) :
  ledger_ok t -> ledger_ok (replace_progress r t).
Proof.
  unfold ledger_ok, replace_progress. intros Hok.
  rewrite map_app. simpl.
  assert (Hfilter : forall l, NoDup (map QueryProgress.query l) ->
            NoDup (map QueryProgress.query
                     (filter (fun r' => negb (String.eqb (QueryProgress.query r')
                                                (QueryProgress.query r))) l))).
  { induction l as [|x l IH]; simpl; intros Hnd; [constructor|].
    inversion Hnd as [|k ks Hnotin Hnd']; subst k ks.
    destruct (negb _); simpl; auto.
    constructor; auto.
    intros Hin. apply Hnotin.
    rewrite in_map_iff in *. destruct Hin as (y & Hy & Hin).
    apply filter_In in Hin. exists y. tauto. }
  apply NoDup_app.
  - apply Hfilter. exact Hok.
  - repeat constructor. intros [].
  - intros k Hin [Hk|[]]. subst k.
    rewrite in_map_iff in Hin. destruct Hin as (y & Hy & Hin).
    apply filter_In in Hin. destruct Hin as [_ Hneq].
    rewrite Hy, String.eqb_refl in Hneq. discriminate.
Qed.

Section Ledger.

Context {CS : Type}.


End Ledger.

(** ** Whole queries and the orchestrator *)

Lemma fetches_In (evs : list event) (q : string) (o : Z) :
  In (q, o) (fetches evs) -> In (EvFetch q o) evs.
Proof.
  induction evs as [|[] evs IH]; simpl; auto.
  intros [H|H]; [left; congruence | right; auto].
Qed.

Section Orchestrator.

Context {CS : Type}.
Variable search : CS -> search_args -> result pyval * CS.

(** One query: the fetcher is called at offset 0 at least, the ledger is
    never consulted, and the mark comes last. *)
Lemma process_query_frame (q : string) (w : @world CS) :
  exists evs,
    trace (snd (process_query search q w)) = trace w ++ evs ++ [EvMark q]
    /\ In (EvFetch q 0) evs
    /\ marks evs = [] /\ checks evs = [].
Proof.
  unfold process_query.
  destruct (while_loop search loop_fuel q 0 0 w) as [[[ex off] total] w1]
    eqn:Hloop.
  apply while_loop_frame in Hloop.
  destruct Hloop as (_ & _ & evs & k & Ht & Hm & Hc & Hfe & _ & Hge & _).
  destruct (mark_query_completed q w1) as [r w2] eqn:Hmark.
  apply mark_query_completed_frame in Hmark.
  destruct Hmark as (_ & Ht2 & _).
  exists evs. split.
  { destruct r; simpl; rewrite Ht2, Ht, <- app_assoc; reflexivity. }
  split; [|auto].
  apply fetches_In. rewrite Hfe.
  assert (Hk : (1 <= k)%nat) by (apply Hge; unfold loop_fuel; lia).
  destruct k as [|k]; [lia|]. rewrite page_offsets_S. left. reflexivity.
Qed.


Lemma for_shows_storage_works (shows : list pyval) :
  forall (total : Z) (w w' : @world CS) (res : option (stage * exn)) (total' : Z),
  for_shows shows total w = (res, total', w') ->
  io_faults w = [] -> io_faults w' = [].
Proof.
  induction shows as [|show rest IH]; intros total w w' res total';
    cbn [for_shows].
  - intros H. inversion H; subst. auto.
  - destruct (podcast_data_of show) as [d|e].
    + destruct (save_podcast d w) as [[[]|e] w1] eqn:Hsave;
        apply save_podcast_frame in Hsave;
        destruct Hsave as (_ & _ & Hf & _).
      * intros H Hio. eapply IH; eauto. rewrite Hf, Hio. reflexivity.
      * intros H Hio. inversion H; subst. rewrite Hf, Hio. reflexivity.
    + intros H. inversion H; subst. auto.
Qed.

Lemma while_loop_storage_works (fuel : nat) (q : string) :
  forall (offset total : Z) (w w' : @world CS) (ex : loop_exit) (off' total' : Z),
  while_loop search fuel q offset total w = (ex, off', total', w') ->
  io_faults w = [] -> io_faults w' = [].
Proof.
  induction fuel as [|fuel IH]; intros offset total w w' ex off' total';
    cbn [while_loop].
  - intros H. inversion H; subst. auto.
  - destruct (offset <? 1000); [|intros H; inversion H; subst; auto].
    destruct (fetch_data search q offset limit (log (EvFetch q offset) w))
      as [r w1] eqn:Hfetch.
    apply fetch_data_frame in Hfetch. destruct Hfetch as (_ & Hf1 & _).
    simpl in Hf1.
    destruct r as [results|e]; [|intros H; inversion H; subst; congruence].
    destruct (shows_of results) as [shows|e];
      [|intros H; inversion H; subst; congruence].
    destruct (negb (truthy shows)); [intros H; inversion H; subst; congruence|].
    destruct (iter shows) as [items|e];
      [|intros H; inversion H; subst; congruence].
    destruct (for_shows items total w1) as [[res total1] w2] eqn:Hfor.
    intros H Hio.
    assert (Hio2 : io_faults w2 = [])
      by (eapply for_shows_storage_works; eauto; congruence).
    destruct res as [[s e]|].
    + inversion H; subst. exact Hio2.
    + eapply IH; eauto.
Qed.

(** With a working storage a query returns its count. *)
Lemma process_query_storage_works (q : string) (w : @world CS) :
  io_faults w = [] ->
  exists total,
    fst (process_query search q w) = Ok total
    /\ io_faults (snd (process_query search q w)) = [].
Proof.
  intros Hio. unfold process_query.
  destruct (while_loop search loop_fuel q 0 0 w) as [[[ex off] total] w1]
    eqn:Hloop.
  apply while_loop_storage_works in Hloop; auto.
  unfold mark_query_completed.
  rewrite transaction_works by (simpl; rewrite Hloop; reflexivity).
  cbn. exists total. rewrite Hloop. auto.
Qed.

(** With a working storage every submitted query is run: the pool neither
    skips a query nor consults the ledger. *)
Lemma executor_map_runs_all (queries : list string) :
  forall (w : @world CS),
  io_faults w = [] ->
  exists evs,
    trace (snd (executor_map search queries w)) = trace w ++ evs
    /\ checks evs = []
    /\ marks evs = queries
    /\ forall q, In q queries -> In (EvFetch q 0) evs.
Proof.
  induction queries as [|q rest IH]; intros w Hio; cbn [executor_map].
  - exists []. rewrite app_nil_r. repeat split; auto; intros q [].
  - destruct (process_query_frame q w) as (evs1 & Ht1 & Hin1 & Hm1 & Hc1).
    destruct (process_query_storage_works q w Hio) as (total & Hr & Hio1).
    destruct (process_query search q w) as [r w1]. cbn [fst snd] in *.
    subst r.
    destruct (IH w1 Hio1) as (evs2 & Ht2 & Hc2 & Hm2 & Hin2).
    destruct (executor_map search rest w1) as [rs w2]. cbn [snd] in *.
    exists ((evs1 ++ [EvMark q]) ++ evs2).
    split; [rewrite Ht2, Ht1, <- !app_assoc; reflexivity|].
    rewrite !checks_app, !marks_app, Hc1, Hc2, Hm1, Hm2. simpl.
    repeat split; auto.
    intros q' [<-|Hq'].
    + apply in_or_app. left. apply in_or_app. left. exact Hin1.
    + apply in_or_app. right. auto.
Qed.

(** So does [main], for every prefix. *)
Lemma main_runs_all (w : @world CS) (q : string) :
  io_faults w = [] ->
  In q generate_prefixes -> In (EvFetch q 0) (trace (snd (main search w))).
Proof.
  intros Hio Hq. unfold main, run.
  destruct (executor_map_runs_all generate_prefixes w Hio)
    as (evs & Ht & _ & _ & Hin).
  destruct (executor_map search generate_prefixes w) as [rs w'].
  cbn [snd] in *. rewrite Ht. apply in_or_app. right. apply Hin. exact Hq.
Qed.


(** A show without an image list cannot be saved: [process_query] stores
    [None] under the key, and [save_podcast] subscripts it. *)
Lemma save_podcast_needs_images (show : pyval) (d : dict) (w : @world CS) :
  podcast_data_of show = Ok d ->
  attr_get show "images" PNone = Ok PNone ->
  exists e, fst (save_podcast d w) = Raise e
            /\ db (snd (save_podcast d w)) = db w.
Proof.
  intros Hd Himg.
  assert (Hrow : exists e, podcast_row d = Raise e).
  { destruct show as [| | | | |sd]; try discriminate.
    cbn in Hd, Himg. injection Hd as <-. injection Himg as Himg.
    unfold podcast_row, podcast_params.
    destruct (joined_or_none _ "available_markets") as [m|e];
      [|exists e; reflexivity].
    destruct (joined_or_none _ "languages") as [l|e]; [|exists e; reflexivity].
    cbn. rewrite Himg. cbn. exists TypeError. reflexivity. }
  destruct Hrow as (e & Hrow).
  destruct (save_podcast d w) as [r w'] eqn:Hsave.
  apply save_podcast_frame in Hsave.
  destruct Hsave as (_ & _ & _ & _ & Hr).
  destruct r as [[]|e'].
  - destruct Hr as (_ & row & Hrow' & _). congruence.
  - exists e'. simpl. tauto.
Qed.

End Orchestrator.

(** C1, on the code: [main] maps [process_query] over every prefix and
    never calls [is_query_completed].  With abc marked complete in the
    ledger, the fetcher is still called for abc, the client is asked for its
    pages, and the show stored under its identifier is overwritten. *)
Theorem completed_query_is_refetched :
  let stub := one_page "abc" (page_of [complete_show "show1" "second name"]) in
  let w' := snd (run stub ["abc"] resumed) in
  fst (is_query_completed "abc" resumed) = Ok true
  /\ fst (run stub ["abc"] resumed) = Ok 1
  /\ fetches (trace w') = [("abc", 0); ("abc", 50)]
  /\ searches (trace w') = [args_of "abc" 0; args_of "abc" 50]
  /\ checks (trace w') = []
  /\ map Podcast.name (rows_with_id (SText "show1") (podcasts (db resumed)))
     = [SText "first name"]
  /\ map Podcast.name (rows_with_id (SText "show1") (podcasts (db w')))
     = [SText "second name"]
  /\ In (EvFetch "abc" 0) (trace (snd (main stub resumed))).
Proof.
  cbv zeta.
  do 7 (split; [vm_compute; reflexivity|]).
  apply main_runs_all; [reflexivity|].
  assert (H : existsb (String.eqb "abc") generate_prefixes = true)
    by (vm_compute; reflexivity).
  apply existsb_exists in H. destruct H as (x & Hx & Heq).
  apply String.eqb_eq in Heq. subst x. exact Hx.
Qed.

(** C9, on the code: a show that has an identifier and a name but no image
    list is not written.  [save_podcast] raises [TypeError] on it and leaves
    the table as it was; [process_query] catches the exception, stops
    paginating and reports no record. *)
Theorem missing_images_not_written :
  let show := bare_show "show1" "a podcast" in
  let stub := one_page "abc" (page_of [show]) in
  exists d,
    podcast_data_of show = Ok d
    /\ get d "id" PNone = PStr "show1"
    /\ get d "images" (PList [PDict []]) = PNone
    /\ fst (save_podcast d (fresh tt)) = Raise TypeError
    /\ db (snd (save_podcast d (fresh tt))) = empty_db
    /\ fst (fst (fst (while_loop stub loop_fuel "abc" 0 0 (fresh tt))))
       = Caught Saving TypeError
    /\ fst (process_query stub "abc" (fresh tt)) = Ok 0
    /\ podcasts (db (snd (process_query stub "abc" (fresh tt)))) = [].
Proof.
  cbv zeta. eexists. split; [vm_compute; reflexivity|].
  repeat split; vm_compute; reflexivity.
Qed.

(** ** The properties at concrete inputs *)








Lemma recorded_countries_mirror_witness :
  let d := data_of (complete_show "show1" "a podcast") in
  let w' := snd (save_podcast d (fresh tt)) in
  save_podcast d (fresh tt) = (Ok tt, w')
  /\ exists r,
       podcasts (db w') = [r]
       /\ Podcast.recorded_countries r = Podcast.available_markets r
       /\ Podcast.available_markets r = SText "US, CA".
Proof.
  cbv zeta.
  assert (Hsave :
    save_podcast (data_of (complete_show "show1" "a podcast")) (fresh tt)
    = (Ok tt, snd (save_podcast (data_of (complete_show "show1" "a podcast"))
                     (fresh tt))))
    by (vm_compute; reflexivity).
  split; [exact Hsave|].
  destruct (recorded_countries_mirror _ _ _ Hsave)
    as (r & Hrow & Hp & Heq & _ & Hjoin).
  exists r. split; [exact Hp|]. split; [exact Heq|].
  destruct (Hjoin [PStr "US"; PStr "CA"]) as (strs & Hs & Hm).
  - vm_compute. reflexivity.
  - discriminate.
  - injection Hs as <-. exact Hm.
Defined.

(** ** The model at work *)

(** A show without an identifier is written, under a NULL key. *)
Example missing_identifier_is_written :
  let show := PDict [("name", PStr "a podcast");
                     ("images", PList [PDict [("url", PStr "https://i.example/1")]]);
                     ("external_urls", PDict [])] in
  fst (save_podcast (data_of show) (fresh tt)) = Ok tt
  /\ map Podcast.id (podcasts (db (snd (save_podcast (data_of show) (fresh tt)))))
     = [SNull]
  /\ map Podcast.available_markets
       (podcasts (db (snd (save_podcast (data_of show) (fresh tt))))) = [SNull].
Proof. cbv zeta. repeat split; vm_compute; reflexivity. Qed.

(** NULL keys never collide: a second show without an identifier is
    stored next to the first. *)
Example missing_identifiers_pile_up :
  let show := PDict [("images", PList [PDict []]); ("external_urls", PDict [])] in
  let w1 := snd (save_podcast (data_of show) (fresh tt)) in
  let w2 := snd (save_podcast (data_of show) w1) in
  length (podcasts (db w2)) = 2%nat.
Proof. vm_compute. reflexivity. Qed.

(** An empty image list and a missing [external_urls] stop the write as
    well. *)
Example empty_images_not_written :
  let show := PDict [("id", PStr "show1"); ("images", PList []);
                     ("external_urls", PDict [])] in
  save_podcast (data_of show) (fresh tt)
  = (Raise IndexError, log (EvSave (data_of show)) (fresh tt)).
Proof. vm_compute. reflexivity. Qed.

Example missing_external_urls_not_written :
  let show := PDict [("id", PStr "show1"); ("images", PList [PDict []])] in
  save_podcast (data_of show) (fresh tt)
  = (Raise AttributeError, log (EvSave (data_of show)) (fresh tt)).
Proof. vm_compute. reflexivity. Qed.

(** Twenty full pages: twenty fetch calls, twenty records. *)
Example twenty_pages :
  let stub := until_950 (page_of [complete_show "show1" "a podcast"]) in
  let run := process_query stub "abc" (fresh tt) in
  fst run = Ok 20
  /\ fetches (trace (snd run)) = page_offsets "abc" 0 20
  /\ length (searches (trace (snd run))) = 20%nat
  /\ marks (trace (snd run)) = ["abc"].
Proof. cbv zeta. repeat split; vm_compute; reflexivity. Qed.

(** A page whose second show cannot be saved: the first is kept and
    counted, the third is never reached. *)
Example partial_page :
  let stub := one_page "abc" (page_of [complete_show "show1" "one";
                                        bare_show "show2" "two";
                                        complete_show "show3" "three"]) in
  let run := process_query stub "abc" (fresh tt) in
  fst run = Ok 1
  /\ map Podcast.id (podcasts (db (snd run))) = [SText "show1"]
  /\ fetches (trace (snd run)) = [("abc", 0)].
Proof. cbv zeta. repeat split; vm_compute; reflexivity. Qed.

(** Five failures exhaust the retries of one fetch; the query is marked
    complete all the same. *)
Example fetch_gives_up :
  let stub := flaky 5 (fun i => RequestException "timeout") (page_of []) in
  let w := {| client := 0%nat; db := empty_db; io_faults := []; trace := [] |} in
  let run := process_query stub "abc" w in
  fst run = Ok 0
  /\ client (snd run) = 5%nat
  /\ fst (fst (fst (while_loop stub loop_fuel "abc" 0 0 w)))
     = Caught Fetching (RequestException "timeout")
  /\ select_completed "abc" (query_progress (db (snd run))) = Some (SInt 1).
Proof. cbv zeta. repeat split; vm_compute; reflexivity. Qed.

(** The scenario of two queries, the first of them already complete: the
    second yields two records, and the first is fetched again. *)
Example two_queries :
  let stub := one_page "aab" (page_of [complete_show "show1" "one";
                                        complete_show "show2" "two"]) in
  let w := {| client := tt;
              db := {| podcasts := [];
                       query_progress := [{| QueryProgress.query := "aaa";
                                             QueryProgress.completed := SInt 1 |}] |};
              io_faults := []; trace := [] |} in
  let r := run stub ["aaa"; "aab"] w in
  fst r = Ok 2
  /\ map Podcast.id (podcasts (db (snd r))) = [SText "show1"; SText "show2"]
  /\ map QueryProgress.query (query_progress (db (snd r))) = ["aaa"; "aab"]
  /\ fetches (trace (snd r)) = [("aaa", 0); ("aab", 0); ("aab", 50)].
Proof. cbv zeta. repeat split; vm_compute; reflexivity. Qed.

(** A storage failure in the completion mark reaches [main] and the
    queries that have not started are dropped. *)
Example failed_mark_stops_the_run :
  let stub := one_page "aab" (page_of []) in
  let w := {| client := tt; db := empty_db; io_faults := [true]; trace := [] |} in
  let r := run stub ["aaa"; "aab"] w in
  fst r = Raise SqliteError
  /\ fetches (trace (snd r)) = [("aaa", 0)].
Proof. cbv zeta. repeat split; vm_compute; reflexivity. Qed.

(** * Further properties *)

(** ** Every prefix is generated *)

Lemma in_product_step {A} (res : list (list A)) (pool : list A) (l : list A) :
  In l (product_step res pool)
  <-> exists x y, In x res /\ In y pool /\ l = x ++ [y].
Proof.
  unfold product_step. rewrite in_flat_map. split.
  - intros (x & Hx & Hl). apply in_map_iff in Hl. destruct Hl as (y & <- & Hy).
    exists x, y. auto.
  - intros (x & y & Hx & Hy & ->). exists x. split; [exact Hx|].
    apply in_map_iff. exists y. auto.
Qed.

Lemma in_product3 {A} (pool : list A) (l : list A) :
  In l (product (repeat pool 3))
  <-> exists a b c, In a pool /\ In b pool /\ In c pool /\ l = [a; b; c].
Proof.
  unfold product. cbn [repeat fold_left].
  rewrite in_product_step. split.
  - intros (x & c & Hx & Hc & ->).
    apply in_product_step in Hx. destruct Hx as (y & b & Hy & Hb & ->).
    apply in_product_step in Hy. destruct Hy as (z & a & Hz & Ha & ->).
    destruct Hz as [<-|[]]. exists a, b, c. auto.
  - intros (a & b & c & Ha & Hb & Hc & ->).
    exists [a; b], c. split; [|auto].
    apply in_product_step. exists [a], b. split; [|auto].
    apply in_product_step. exists [], a. split; [left; reflexivity|auto].
Qed.

Lemma lower_in_alphabet (c : ascii) :
  is_lower c = true <-> In c (list_ascii_of_string alphabet).
Proof.
  split.
  - destruct c as [[] [] [] [] [] [] [] []]; intros H;
      try (vm_compute in H; discriminate H);
      cbv; repeat (first [left; reflexivity | right]).
  - intros H.
    assert (Hall : forallb is_lower (list_ascii_of_string alphabet) = true)
      by (vm_compute; reflexivity).
    rewrite forallb_forall in Hall. auto.
Qed.

Lemma in_chars (x : string) (s : string) :
  In x (chars s) <-> exists c, In c (list_ascii_of_string s) /\ x = String c EmptyString.
Proof.
  unfold chars. rewrite in_map_iff. split; intros (c & H1 & H2); exists c; auto.
Qed.

(** X1: [generate_prefixes] misses nothing: a string is in the list exactly
    when it is made of three lowercase letters. *)
Theorem generate_prefixes_complete (s : string) :
  In s generate_prefixes <-> lowercase3 s = true.
Proof.
  unfold generate_prefixes. rewrite in_map_iff. split.
  - intros (l & <- & Hl). apply in_product3 in Hl.
    destruct Hl as (a & b & c & Ha & Hb & Hc & ->).
    apply in_chars in Ha, Hb, Hc.
    destruct Ha as (ca & Ha & ->), Hb as (cb & Hb & ->), Hc as (cc & Hc & ->).
    apply lower_in_alphabet in Ha, Hb, Hc.
    unfold lowercase3. cbn. rewrite Ha, Hb, Hc. reflexivity.
  - unfold lowercase3. intros H. apply andb_prop in H. destruct H as [Hlen Hlow].
    destruct s as [|ca [|cb [|cc [|? ?]]]]; try discriminate Hlen.
    cbn in Hlow.
    destruct (is_lower ca) eqn:Ha; [|discriminate].
    destruct (is_lower cb) eqn:Hb; [|discriminate].
    destruct (is_lower cc) eqn:Hc; [|discriminate].
    apply lower_in_alphabet in Ha, Hb, Hc.
    exists [String ca EmptyString; String cb EmptyString; String cc EmptyString].
    split; [reflexivity|].
    apply in_product3.
    exists (String ca EmptyString), (String cb EmptyString), (String cc EmptyString).
    split; [apply in_chars; exists ca; auto|].
    split; [apply in_chars; exists cb; auto|].
    split; [apply in_chars; exists cc; auto|].
    reflexivity.
Qed.

(** ** The retried fetch, for any client *)

Section FetchOutcomes.

Context {CS : Type}.
Variable search : CS -> search_args -> result pyval * CS.

Lemma retry_outcomes (q : string) (offset lim : Z) (retries : nat) :
  forall (w w' : @world CS) (r : result pyval),
  retry retries (search_call search q offset lim) w = (r, w') ->
  let args := {| arg_q := q; arg_type := "show"; arg_market := "US";
                 arg_limit := lim; arg_offset := offset |} in
  exists failures,
    (length failures <= retries)%nat
    /\ call_outcomes search (client w) args (S (length failures))
       = (map Raise failures ++ [r], client w')
    /\ trace w' = trace w ++ repeat (EvSearch args) (S (length failures))
    /\ (forall e, r = Raise e -> length failures = retries).
Proof.
  induction retries as [|n IH]; intros w w' r; cbn [retry];
    destruct (search_call search q offset lim w) as [[a|e] w1] eqn:Hcall;
    apply search_call_frame in Hcall; destruct Hcall as (_ & _ & Ht & Hs);
    intros H; cbv zeta.
  - inversion H; subst; clear H. exists []. cbn [length call_outcomes].
    rewrite Hs. repeat split; auto; discriminate.
  - inversion H; subst; clear H. exists []. cbn [length call_outcomes].
    rewrite Hs. repeat split; auto.
  - inversion H; subst; clear H. exists []. cbn [length call_outcomes].
    rewrite Hs. repeat split; auto; try lia; discriminate.
  - apply IH in H. destruct H as (failures & Hlen & Hout & Ht' & Hr).
    exists (e :: failures). cbn [length]. split; [lia|]. split; [|split].
    + change (call_outcomes search (client w) ?a (S ?k))
        with (let (r0, c1) := search (client w) a in
              let (rs, c2) := call_outcomes search c1 a k in (r0 :: rs, c2)).
      rewrite Hs, Hout. reflexivity.
    + rewrite Ht', Ht. cbn [repeat]. rewrite <- app_assoc. reflexivity.
    + intros e0 He0. rewrite (Hr e0 He0). reflexivity.
Qed.

(** X2: whatever the client does, [fetch_data] calls it between one and
    five times with the same arguments and touches nothing else.  Every
    call but the last raised, the answer of the last call is the answer of
    [fetch_data], and that answer is an exception only after five calls. *)
Theorem fetch_data_outcomes (q : string) (offset lim : Z) (w : @world CS) :
  let r := fst (fetch_data search q offset lim w) in
  let w' := snd (fetch_data search q offset lim w) in
  let args := {| arg_q := q; arg_type := "show"; arg_market := "US";
                 arg_limit := lim; arg_offset := offset |} in
  db w' = db w /\ io_faults w' = io_faults w
  /\ exists failures,
       (length failures <= 4)%nat
       /\ call_outcomes search (client w) args (S (length failures))
          = (map Raise failures ++ [r], client w')
       /\ trace w' = trace w ++ repeat (EvSearch args) (S (length failures))
       /\ (forall e, r = Raise e -> length failures = 4%nat).
Proof.
  cbv zeta.
  destruct (fetch_data search q offset lim w) as [r w'] eqn:Hfetch.
  pose proof (fetch_data_frame search _ _ _ _ _ _ Hfetch) as (Hd & Hf & _).
  unfold fetch_data, on_exception in Hfetch. simpl Nat.pred in Hfetch.
  apply retry_outcomes in Hfetch. cbn [fst snd]. auto.
Qed.

End FetchOutcomes.

(** ** One write, one key *)


Lemma select_completed_replace_other (q : string) (r : QueryProgress.row)
  (t : list QueryProgress.row) :
  q <> QueryProgress.query r ->
  select_completed q (replace_progress r t) = select_completed q t.
Proof.
  intros Hq. unfold select_completed, replace_progress.
  induction t as [|x t IH]; simpl.
  - replace (String.eqb (QueryProgress.query r) q) with false; [reflexivity|].
    symmetry. apply String.eqb_neq. congruence.
  - destruct (String.eqb_spec (QueryProgress.query x) (QueryProgress.query r))
      as [Hx|Hx]; simpl.
    + replace (String.eqb (QueryProgress.query x) q) with false; [exact IH|].
      symmetry. apply String.eqb_neq. congruence.
    + destruct (String.eqb (QueryProgress.query x) q); [reflexivity|exact IH].
Qed.



Section Writes.

Context {CS : Type}.


(** X13: [mark_query_completed] touches one query: the entry of every
    other query reads as before, and so does the table of podcasts. *)
Theorem mark_touches_one_query (q q' : string) (w : @world CS) :
  q' <> q ->
  let w' := snd (mark_query_completed q w) in
  select_completed q' (query_progress (db w'))
  = select_completed q' (query_progress (db w))
  /\ complete_in q' (db w') = complete_in q' (db w)
  /\ podcasts (db w') = podcasts (db w).
Proof.
  intros Hq. cbv zeta.
  destruct (mark_query_completed q w) as [r w'] eqn:Hmark.
  apply mark_query_completed_frame in Hmark.
  destruct Hmark as (_ & _ & _ & Hp & Hr). cbn [snd].
  assert (Hsel : select_completed q' (query_progress (db w'))
                 = select_completed q' (query_progress (db w))).
  { destruct r as [[]|e].
    - destruct Hr as [_ Hr]. rewrite Hr.
      apply select_completed_replace_other. exact Hq.
    - destruct Hr as (_ & _ & Hd). rewrite Hd. reflexivity. }
  split; [exact Hsel|]. split; [|exact Hp].
  unfold complete_in. rewrite Hsel. reflexivity.
Qed.

End Writes.


(** ** What a whole run keeps *)

Lemma keys_app (a b : list Podcast.row) : keys (a ++ b) = keys a ++ keys b.
Proof. unfold keys. rewrite map_app, filter_app. reflexivity. Qed.

Lemma in_keys (k : sqlval) (t : list Podcast.row) :
  In k (keys t) <-> k <> SNull /\ exists r, In r t /\ Podcast.id r = k.
Proof.
  unfold keys. rewrite filter_In, in_map_iff. split.
  - intros [(r & Hr & Hin) Hnn]. split; [|exists r; auto].
    intros ->. discriminate.
  - intros [Hnn (r & Hin & Hr)]. split; [exists r; auto|].
    destruct k; try reflexivity. congruence.
Qed.

Lemma keys_filter_NoDup (f : Podcast.row -> bool) (t : list Podcast.row) :
  NoDup (keys t) -> NoDup (keys (filter f t)).
Proof.
  induction t as [|x t IH]; simpl; auto.
  unfold keys in *. simpl.
  destruct (negb (sqlval_eqb (Podcast.id x) SNull)) eqn:Hx; intros Hnd.
  - inversion Hnd as [|k ks Hnotin Hnd']; subst.
    destruct (f x); simpl; rewrite ?Hx; auto.
    constructor; auto.
    intros Hin. apply Hnotin.
    rewrite filter_In in *. destruct Hin as [Hin Hk]. split; [|exact Hk].
    rewrite in_map_iff in *. destruct Hin as (y & Hy & Hin).
    apply filter_In in Hin. exists y. tauto.
  - destruct (f x); simpl; rewrite ?Hx; auto.
Qed.

Lemma same_key_false (a b : sqlval) :
  a <> SNull -> same_key a b = false -> a <> b.
Proof.
  intros Ha Hs Hab. subst b. destruct a; simpl in Hs.
  - congruence.
  - rewrite Z.eqb_refl in Hs. discriminate.
  - rewrite String.eqb_refl in Hs. discriminate.
Qed.

(** The primary key survives an insert-or-replace. *)
Lemma replace_podcast_ok (r : Podcast.row) (t : list Podcast.row) :
  podcasts_ok t -> podcasts_ok (replace_podcast r t).
Proof.
  unfold podcasts_ok, replace_podcast. intros Hok.
  rewrite keys_app. apply NoDup_app.
  - apply keys_filter_NoDup. exact Hok.
  - unfold keys. simpl. destruct (negb _); repeat constructor. intros [].
  - intros k Hin Hin'.
    apply in_keys in Hin. destruct Hin as (Hnn & x & Hx & Hk).
    apply in_keys in Hin'. destruct Hin' as (_ & y & [<-|[]] & Hy).
    apply filter_In in Hx. destruct Hx as [_ Hx].
    apply negb_true_iff in Hx.
    apply same_key_false in Hx; congruence.
Qed.

(** A stored identifier stays stored. *)
Lemma replace_podcast_keeps_key (r : Podcast.row) (k : sqlval)
  (t : list Podcast.row) :
  In k (keys t) -> In k (keys (replace_podcast r t)).
Proof.
  intros Hin. unfold replace_podcast. rewrite keys_app.
  apply in_keys in Hin. destruct Hin as (Hnn & x & Hx & Hk).
  destruct (same_key (Podcast.id x) (Podcast.id r)) eqn:Hs.
  - apply in_or_app. right. apply in_keys. split; [exact Hnn|].
    exists r. split; [left; reflexivity|].
    rewrite <- Hk. destruct (Podcast.id x), (Podcast.id r); simpl in Hs;
      try discriminate.
    + apply Z.eqb_eq in Hs. congruence.
    + apply String.eqb_eq in Hs. congruence.
  - apply in_or_app. left. apply in_keys. split; [exact Hnn|].
    exists x. split; [|exact Hk].
    apply filter_In. split; [exact Hx|]. rewrite Hs. reflexivity.
Qed.

Section Invariants.

Context {CS : Type}.
Variable search : CS -> search_args -> result pyval * CS.

(** A property of the database that an insert-or-replace of a podcast and
    the marking of a query both keep. *)
Variable P : database -> Prop.
Hypothesis P_save : forall d row,
  P d -> P {| podcasts := replace_podcast row (podcasts d);
              query_progress := query_progress d |}.
Hypothesis P_mark : forall d q,
  P d -> P {| podcasts := podcasts d;
              query_progress :=
                replace_progress {| QueryProgress.query := q;
                                    QueryProgress.completed := SInt 1 |}
                  (query_progress d) |}.

Lemma save_podcast_keeps (d : dict) (w : @world CS) :
  P (db w) -> P (db (snd (save_podcast d w))).
Proof.
  intros HP. destruct (save_podcast d w) as [r w'] eqn:Hsave.
  apply save_podcast_frame in Hsave.
  destruct Hsave as (_ & _ & _ & Hq & Hr). cbn [snd].
  destruct r as [[]|e].
  - destruct Hr as (_ & row & _ & Hp).
    specialize (P_save (db w) row HP).
    destruct (db w') as [pods ledger]. cbn in Hq, Hp. subst. exact P_save.
  - destruct Hr as [Hd _]. rewrite Hd. exact HP.
Qed.

Lemma mark_query_completed_keeps (q : string) (w : @world CS) :
  P (db w) -> P (db (snd (mark_query_completed q w))).
Proof.
  intros HP. destruct (mark_query_completed q w) as [r w'] eqn:Hmark.
  apply mark_query_completed_frame in Hmark.
  destruct Hmark as (_ & _ & _ & Hp & Hr). cbn [snd].
  destruct r as [[]|e].
  - destruct Hr as [_ Hq]. specialize (P_mark (db w) q HP).
    destruct (db w') as [pods ledger]. cbn in Hq, Hp. subst. exact P_mark.
  - destruct Hr as (_ & _ & Hd). rewrite Hd. exact HP.
Qed.

Lemma for_shows_keeps (shows : list pyval) :
  forall (total : Z) (w : @world CS),
  P (db w) -> P (db (snd (for_shows shows total w))).
Proof.
  induction shows as [|show rest IH]; intros total w HP; cbn [for_shows].
  - exact HP.
  - destruct (podcast_data_of show) as [d|e]; [|exact HP].
    pose proof (save_podcast_keeps d w HP) as HP1.
    destruct (save_podcast d w) as [[[]|e] w1]; cbn [snd] in HP1.
    + apply IH. exact HP1.
    + exact HP1.
Qed.

Lemma while_loop_keeps (fuel : nat) (q : string) :
  forall (offset total : Z) (w : @world CS),
  P (db w) -> P (db (snd (while_loop search fuel q offset total w))).
Proof.
  induction fuel as [|fuel IH]; intros offset total w HP; cbn [while_loop].
  - exact HP.
  - destruct (offset <? 1000); [|exact HP].
    destruct (fetch_data search q offset limit (log (EvFetch q offset) w))
      as [r w1] eqn:Hfetch.
    apply fetch_data_frame in Hfetch. destruct Hfetch as (Hd & _).
    assert (HP1 : P (db w1)) by (rewrite Hd; exact HP).
    destruct r as [results|e]; [|exact HP1].
    destruct (shows_of results) as [shows|e]; [|exact HP1].
    destruct (negb (truthy shows)); [exact HP1|].
    destruct (iter shows) as [items|e]; [|exact HP1].
    pose proof (for_shows_keeps items total w1 HP1) as HP2.
    destruct (for_shows items total w1) as [[[[s e]|] total1] w2];
      cbn [snd] in HP2.
    + exact HP2.
    + apply IH. exact HP2.
Qed.

Lemma process_query_keeps (q : string) (w : @world CS) :
  P (db w) -> P (db (snd (process_query search q w))).
Proof.
  intros HP. unfold process_query.
  pose proof (while_loop_keeps loop_fuel q 0 0 w HP) as HP1.
  destruct (while_loop search loop_fuel q 0 0 w) as [[[ex off] total] w1].
  cbn [snd] in HP1.
  pose proof (mark_query_completed_keeps q w1 HP1) as HP2.
  destruct (mark_query_completed q w1) as [[[]|e] w2]; exact HP2.
Qed.



End Invariants.

Section RunProperties.

Context {CS : Type}.
Variable search : CS -> search_args -> result pyval * CS.

Lemma completion_kept_by_mark (q : string) (d : database) (q' : string) :
  complete_in q d = true ->
  complete_in q
    {| podcasts := podcasts d;
       query_progress :=
         replace_progress {| QueryProgress.query := q';
                             QueryProgress.completed := SInt 1 |}
           (query_progress d) |} = true.
Proof.
  intros H. unfold complete_in in *. cbn [query_progress].
  destruct (String.eqb_spec q q') as [<-|Hneq].
  - rewrite select_completed_replace. reflexivity.
  - rewrite select_completed_replace_other by exact Hneq. exact H.
Qed.

(** X5: one query keeps what the database holds.  Whatever the client
    answers and whatever storage failures occur, [process_query] keeps the
    primary keys of both tables (no two rows of [podcasts] with the same
    identifier, no two rows of [query_progress] with the same query), never
    takes a completion back, and never loses a stored identifier. *)
Theorem process_query_keeps_database (query : string) (w : @world CS) :
  let w' := snd (process_query search query w) in
  (database_ok (db w) -> database_ok (db w'))
  /\ (forall q, complete_in q (db w) = true -> complete_in q (db w') = true)
  /\ (forall k, In k (keys (podcasts (db w))) -> In k (keys (podcasts (db w')))).
Proof.
  cbv zeta. split; [|split].
  - apply process_query_keeps.
    + intros d row [Hp Hl].
      split; [apply replace_podcast_ok; exact Hp|exact Hl].
    + intros d q [Hp Hl].
      split; [exact Hp|apply replace_progress_ok; exact Hl].
  - intros q.
    apply (process_query_keeps search (fun d => complete_in q d = true)).
    + intros d row H. exact H.
    + intros d q' H. apply completion_kept_by_mark. exact H.
  - intros k.
    apply (process_query_keeps search (fun d => In k (keys (podcasts d)))).
    + intros d row H. cbn [podcasts]. apply replace_podcast_keeps_key. exact H.
    + intros d q' H. exact H.
Qed.





Lemma process_query_result (q : string) (w : @world CS) :
  match fst (process_query search q w) with
  | Ok n => 0 <= n
  | Raise e => e = SqliteError
  end.
Proof.
  unfold process_query.
  destruct (while_loop search loop_fuel q 0 0 w) as [[[ex off] total] w1]
    eqn:Hloop.
  apply while_loop_frame in Hloop. destruct Hloop as (_ & Htot & _).
  destruct (mark_query_completed q w1) as [r w2] eqn:Hmark.
  apply mark_query_completed_frame in Hmark.
  destruct Hmark as (_ & _ & _ & _ & Hr).
  destruct r as [[]|e]; cbn [fst]; [exact Htot|tauto].
Qed.

(** X8: no exception of the client, of a page or of a record ever leaves
    [process_query]: it returns a count that is not negative, or raises the
    storage failure of its completion mark. *)
Theorem query_raises_storage_failures_only (q : string) (w : @world CS) :
  match fst (process_query search q w) with
  | Ok n => 0 <= n
  | Raise e => e = SqliteError
  end
  /\ (hd false (io_faults (snd (while_loop search loop_fuel q 0 0 w))) = false ->
      exists n, fst (process_query search q w) = Ok n).
Proof.
  split; [apply process_query_result|].
  unfold process_query.
  destruct (while_loop search loop_fuel q 0 0 w) as [[[ex off] total] w1].
  cbn [snd]. intros Hh. unfold mark_query_completed.
  rewrite transaction_works by exact Hh. cbn. exists total. reflexivity.
Qed.


End RunProperties.

(** ** One query, event by event *)

Lemma saves_app (a b : list event) : saves (a ++ b) = saves a ++ saves b.
Proof.
  induction a as [|[] a IH]; simpl; rewrite ?IH; reflexivity.
Qed.

Lemma saves_saves (ds : list dict) : saves (map EvSave ds) = ds.
Proof. induction ds; simpl; congruence. Qed.

Lemma saves_searches (a : search_args) (k : nat) :
  saves (repeat (EvSearch a) k) = [].
Proof. induction k; simpl; auto. Qed.

Section Events.

Context {CS : Type}.
Variable search : CS -> search_args -> result pyval * CS.

Lemma for_shows_count (shows : list pyval) :
  forall (total : Z) (w w' : @world CS) (res : option (stage * exn)) (total' : Z),
  for_shows shows total w = (res, total', w') ->
  exists ds,
    trace w' = trace w ++ map EvSave ds
    /\ total' = total + Z.of_nat (length ds)
                - match res with Some (Saving, _) => 1 | _ => 0 end.
Proof.
  induction shows as [|show rest IH]; intros total w w' res total';
    cbn [for_shows].
  - intros H. inversion H; subst. exists []. simpl. rewrite app_nil_r.
    split; [reflexivity|lia].
  - destruct (podcast_data_of show) as [d|e].
    + destruct (save_podcast d w) as [[[]|e] w1] eqn:Hsave;
        apply save_podcast_frame in Hsave;
        destruct Hsave as (_ & Ht & _).
      * intros H. apply IH in H. destruct H as (ds & Ht' & Hcount).
        exists (d :: ds). split.
        -- rewrite Ht', Ht, <- app_assoc. reflexivity.
        -- cbn [length]. lia.
      * intros H. inversion H; subst. exists [d].
        split; [exact Ht|]. cbn [length]. lia.
    + intros H. inversion H; subst. exists []. simpl. rewrite app_nil_r.
      split; [reflexivity|lia].
Qed.

(** The events of the loop: what is counted, and what is asked of the
    client. *)
Lemma while_loop_events (fuel : nat) (q : string) :
  forall (offset total : Z) (w w' : @world CS) (ex : loop_exit) (off' total' : Z),
  while_loop search fuel q offset total w = (ex, off', total', w') ->
  exists evs,
    trace w' = trace w ++ evs
    /\ total' = total + Z.of_nat (length (saves evs)) - failed_saves ex
    /\ Forall (fun a => exists i : nat,
                 offset + limit * Z.of_nat i < 1000
                 /\ a = args_of q (offset + limit * Z.of_nat i))
         (searches evs).
Proof.
  induction fuel as [|fuel IH]; intros offset total w w' ex off' total';
    cbn [while_loop].
  - intros H. inversion H; subst. exists []. rewrite app_nil_r.
    repeat split; auto. simpl. lia.
  - destruct (offset <? 1000) eqn:Hlt.
    2:{ intros H. inversion H; subst. exists []. rewrite app_nil_r.
        repeat split; auto. simpl. lia. }
    apply Z.ltb_lt in Hlt.
    destruct (fetch_data search q offset limit (log (EvFetch q offset) w))
      as [r w1] eqn:Hfetch.
    apply fetch_data_frame in Hfetch.
    destruct Hfetch as (_ & _ & k1 & _ & Ht1 & _). simpl in Ht1.
    fold (args_of q offset) in Ht1.
    set (evs1 := [EvFetch q offset] ++ repeat (EvSearch (args_of q offset)) k1).
    assert (Hevs1 : trace w1 = trace w ++ evs1)
      by (unfold evs1; rewrite Ht1, <- app_assoc; reflexivity).
    assert (Hsv1 : saves evs1 = [])
      by (unfold evs1; rewrite saves_app, saves_searches; reflexivity).
    assert (Hrq1 : Forall (fun a => exists i : nat,
                             offset + limit * Z.of_nat i < 1000
                             /\ a = args_of q (offset + limit * Z.of_nat i))
                     (searches evs1)).
    { unfold evs1. rewrite searches_app, searches_searches.
      cbn [searches app].
      apply Forall_forall. intros a Ha. apply repeat_spec in Ha. subst a.
      exists 0%nat. split; [unfold limit; lia|]. f_equal. unfold limit. lia. }
    assert (Hstop : forall ex0,
      failed_saves ex0 = 0 ->
      (ex0, offset, total, w1) = (ex, off', total', w') ->
      exists evs,
        trace w' = trace w ++ evs
        /\ total' = total + Z.of_nat (length (saves evs)) - failed_saves ex
        /\ Forall (fun a => exists i : nat,
                     offset + limit * Z.of_nat i < 1000
                     /\ a = args_of q (offset + limit * Z.of_nat i))
             (searches evs)).
    { intros ex0 Hex H. inversion H; subst. exists evs1.
      rewrite Hsv1, Hex. repeat split; auto. simpl. lia. }
    destruct r as [results|e]; [|apply Hstop; reflexivity].
    destruct (shows_of results) as [shows|e]; [|apply Hstop; reflexivity].
    destruct (negb (truthy shows)); [apply Hstop; reflexivity|].
    destruct (iter shows) as [items|e]; [|apply Hstop; reflexivity].
    destruct (for_shows items total w1) as [[res total1] w2] eqn:Hfor.
    pose proof (for_shows_frame items total w1 w2 res total1 Hfor)
      as (_ & _ & _ & _ & Hstage).
    apply for_shows_count in Hfor. destruct Hfor as (ds & Ht2 & Hcount).
    destruct res as [[s e]|].
    + intros H. inversion H; subst. exists (evs1 ++ map EvSave ds).
      rewrite saves_app, searches_app, saves_saves, searches_saves, Hsv1.
      rewrite app_nil_r. split; [|split].
      * rewrite Ht2, Hevs1, <- app_assoc. reflexivity.
      * destruct Hstage as [->| ->]; simpl; lia.
      * exact Hrq1.
    + intros H. apply IH in H. destruct H as (evs3 & Ht3 & Hcount3 & Hrq3).
      exists (evs1 ++ map EvSave ds ++ evs3).
      rewrite !saves_app, !searches_app, saves_saves, searches_saves, Hsv1.
      split; [|split].
      * rewrite Ht3, Ht2, Hevs1, <- !app_assoc. reflexivity.
      * cbn [app]. rewrite length_app. lia.
      * cbn [app]. apply Forall_app. split; [exact Hrq1|].
        eapply Forall_impl; [|exact Hrq3].
        intros a (i & Hi & Ha). exists (S i). subst a.
        split; [unfold limit in *; lia|]. f_equal. unfold limit. lia.
Qed.

(** X10: the count [process_query] returns is the number of [save_podcast]
    calls that returned: every call made, less the one that raised when the
    loop was left on a failed save. *)
Theorem count_is_successful_saves (q : string) (w : @world CS) :
  let '(ex, _, _, _) := while_loop search loop_fuel q 0 0 w in
  exists evs,
    trace (snd (process_query search q w)) = trace w ++ evs
    /\ match fst (process_query search q w) with
       | Ok n => n = Z.of_nat (length (saves evs)) - failed_saves ex
       | Raise _ => True
       end.
Proof.
  unfold process_query.
  destruct (while_loop search loop_fuel q 0 0 w) as [[[ex off] total] w1]
    eqn:Hloop.
  apply while_loop_events in Hloop. destruct Hloop as (evs & Ht & Hcount & _).
  destruct (mark_query_completed q w1) as [r w2] eqn:Hmark.
  apply mark_query_completed_frame in Hmark. destruct Hmark as (_ & Ht2 & _).
  exists (evs ++ [EvMark q]). split.
  - destruct r; cbn [snd]; rewrite Ht2, Ht, <- app_assoc; reflexivity.
  - destruct r; cbn [fst]; [|exact I].
    rewrite saves_app. simpl. rewrite app_nil_r. lia.
Qed.

(** X11: every request [process_query] sends to the client is a search for
    the query itself, of type show, in market US, with limit 50, at one of
    the twenty offsets 0, 50, ..., 950. *)
Theorem requests_are_well_formed (q : string) (w : @world CS) :
  exists evs,
    trace (snd (process_query search q w)) = trace w ++ evs
    /\ Forall (fun a => exists i : nat,
                 (i < 20)%nat
                 /\ a = {| arg_q := q; arg_type := "show"; arg_market := "US";
                           arg_limit := 50;
                           arg_offset := 50 * Z.of_nat i |})
         (searches evs).
Proof.
  unfold process_query.
  destruct (while_loop search loop_fuel q 0 0 w) as [[[ex off] total] w1]
    eqn:Hloop.
  apply while_loop_events in Hloop. destruct Hloop as (evs & Ht & _ & Hrq).
  destruct (mark_query_completed q w1) as [r w2] eqn:Hmark.
  apply mark_query_completed_frame in Hmark. destruct Hmark as (_ & Ht2 & _).
  exists (evs ++ [EvMark q]). split.
  - destruct r; cbn [snd]; rewrite Ht2, Ht, <- app_assoc; reflexivity.
  - rewrite searches_app. simpl. rewrite app_nil_r.
    eapply Forall_impl; [|exact Hrq].
    intros a (i & Hi & ->). exists i. unfold limit in *.
    split; [lia|]. unfold args_of, limit. f_equal.
Qed.

(** X12: an empty first page ends the query at once: one fetch, one
    request, nothing stored, the query marked, and the count 0 unless the
    mark fails. *)
Theorem empty_first_page (q : string) (w : @world CS) (results shows : pyval)
  (c' : CS) :
  search (client w) (args_of q 0) = (Ok results, c') ->
  shows_of results = Ok shows ->
  truthy shows = false ->
  let r := fst (process_query search q w) in
  let w' := snd (process_query search q w) in
  fst (fst (fst (while_loop search loop_fuel q 0 0 w))) = NoShows
  /\ trace w' = trace w ++ [EvFetch q 0; EvSearch (args_of q 0); EvMark q]
  /\ podcasts (db w') = podcasts (db w)
  /\ client w' = c'
  /\ (r = Ok 0 \/ r = Raise SqliteError)
  /\ (hd false (io_faults w) = false -> r = Ok 0 /\ complete_in q (db w') = true).
Proof.
  intros Hsearch Hshows Hfalsy. cbv zeta.
  unfold process_query, loop_fuel. cbn [while_loop].
  replace (0 <? 1000) with true by reflexivity.
  rewrite (fetch_data_first_try search q 0 limit (log (EvFetch q 0) w)
             results c' Hsearch).
  rewrite Hshows, Hfalsy. cbn [negb fst].
  match goal with |- context [mark_query_completed q ?w1] =>
    destruct (mark_query_completed q w1) as [r w2] eqn:Hmark
  end.
  apply mark_query_completed_frame in Hmark.
  cbn [client db io_faults trace log] in Hmark.
  destruct Hmark as (Hc & Ht & _ & Hp & Hr).
  split; [reflexivity|].
  split; [destruct r; cbn [snd]; rewrite Ht, <- !app_assoc; reflexivity|].
  split; [destruct r; cbn [snd]; exact Hp|].
  split; [destruct r; cbn [snd]; exact Hc|].
  split.
  - destruct r as [[]|e]; cbn [fst]; [left; reflexivity|].
    right. destruct Hr as (-> & _). reflexivity.
  - intros Hh. destruct r as [[]|e]; cbn [fst snd].
    + split; [reflexivity|]. destruct Hr as [_ Hr].
      unfold complete_in. rewrite Hr, select_completed_replace. reflexivity.
    + destruct Hr as (_ & Hh' & _). congruence.
Qed.

Lemma call_outcomes_all_raise (a : search_args) (k : nat) :
  (forall c a', exists e c', search c a' = (Raise e, c')) ->
  forall c, Forall (fun r => is_ok r = false)
              (fst (call_outcomes search c a k)).
Proof.
  intros Hdown. induction k as [|k IH]; intros c; cbn [call_outcomes].
  - constructor.
  - destruct (Hdown c a) as (e & c1 & Hs). rewrite Hs.
    specialize (IH c1). destruct (call_outcomes search c1 a k) as [rs c2].
    cbn [fst] in *. constructor; auto.
Qed.

(** X14: when the client cannot be reached, so that every call raises,
    [process_query] asks five times for the first page and gives up on the
    query: nothing is stored, the query is marked complete all the same,
    and the count is 0 unless the mark fails. *)
Theorem unreachable_client (q : string) (w : @world CS) :
  (forall c a, exists e c', search c a = (Raise e, c')) ->
  let r := fst (process_query search q w) in
  let w' := snd (process_query search q w) in
  (exists e, fst (fst (fst (while_loop search loop_fuel q 0 0 w)))
             = Caught Fetching e)
  /\ trace w' = trace w ++ [EvFetch q 0] ++ repeat (EvSearch (args_of q 0)) 5
                ++ [EvMark q]
  /\ podcasts (db w') = podcasts (db w)
  /\ (r = Ok 0 \/ r = Raise SqliteError)
  /\ (hd false (io_faults w) = false -> r = Ok 0 /\ complete_in q (db w') = true).
Proof.
  intros Hdown. cbv zeta.
  unfold process_query, loop_fuel. cbn [while_loop].
  replace (0 <? 1000) with true by reflexivity.
  destruct (fetch_data search q 0 limit (log (EvFetch q 0) w)) as [r0 w1]
    eqn:Hfetch.
  pose proof (fetch_data_frame search _ _ _ _ _ _ Hfetch) as (Hd1 & Hf1 & _).
  unfold fetch_data, on_exception in Hfetch. simpl Nat.pred in Hfetch.
  apply retry_outcomes in Hfetch. cbv zeta in Hfetch.
  destruct Hfetch as (failures & Hlen & Hout & Ht1 & Hlast).
  fold (args_of q 0) in Hout, Ht1.
  pose proof (call_outcomes_all_raise (args_of q 0) (S (length failures)) Hdown
                (client (log (EvFetch q 0) w))) as Hall.
  rewrite Hout in Hall. cbn [fst] in Hall.
  apply Forall_app in Hall. destruct Hall as [_ Hall].
  inversion Hall as [|x l Hr0 _]; subst.
  destruct r0 as [a|e]; [discriminate Hr0|].
  rewrite (Hlast e eq_refl) in Ht1. cbn [fst].
  destruct (mark_query_completed q w1) as [r w2] eqn:Hmark.
  apply mark_query_completed_frame in Hmark.
  destruct Hmark as (_ & Ht & _ & Hp & Hr).
  simpl in Hd1, Hf1, Ht1.
  split; [exists e; reflexivity|].
  split; [destruct r; cbn [snd]; rewrite Ht, Ht1, <- !app_assoc; reflexivity|].
  split; [destruct r; cbn [snd]; rewrite Hp, Hd1; reflexivity|].
  split.
  - destruct r as [[]|e']; cbn [fst]; [left; reflexivity|].
    right. destruct Hr as (-> & _). reflexivity.
  - intros Hh. destruct r as [[]|e']; cbn [fst snd].
    + split; [reflexivity|]. destruct Hr as [_ Hr].
      unfold complete_in. rewrite Hr, select_completed_replace. reflexivity.
    + destruct Hr as (_ & Hh' & _). congruence.
Qed.

End Events.

(** ** The ledger is written, never read *)

Section LedgerBlind.

Context {CS : Type}.
Variable search : CS -> search_args -> result pyval * CS.

Lemma save_podcast_ledger_blind (d : dict) (w1 w2 : @world CS) :
  same_but_ledger w1 w2 ->
  fst (save_podcast d w1) = fst (save_podcast d w2)
  /\ same_but_ledger (snd (save_podcast d w1)) (snd (save_podcast d w2)).
Proof.
  intros (Hc & Hp & Hf & Ht).
  unfold save_podcast, transaction, same_but_ledger.
  cbn [log io_faults client db trace]. rewrite <- Hf, <- Hc, <- Hp, <- Ht.
  destruct (io_faults w1) as [|[|] rest]; destruct (podcast_row d);
    cbn; auto.
Qed.

Lemma mark_ledger_blind (q : string) (w1 w2 : @world CS) :
  same_but_ledger w1 w2 ->
  fst (mark_query_completed q w1) = fst (mark_query_completed q w2)
  /\ same_but_ledger (snd (mark_query_completed q w1))
       (snd (mark_query_completed q w2)).
Proof.
  intros (Hc & Hp & Hf & Ht).
  unfold mark_query_completed, transaction, same_but_ledger.
  cbn [log io_faults client db trace]. rewrite <- Hf, <- Hc, <- Hp, <- Ht.
  destruct (io_faults w1) as [|[|] rest]; cbn; auto.
Qed.

Lemma search_call_ledger_blind (q : string) (offset lim : Z)
  (w1 w2 : @world CS) :
  same_but_ledger w1 w2 ->
  fst (search_call search q offset lim w1)
  = fst (search_call search q offset lim w2)
  /\ same_but_ledger (snd (search_call search q offset lim w1))
       (snd (search_call search q offset lim w2)).
Proof.
  intros (Hc & Hp & Hf & Ht). unfold search_call, same_but_ledger.
  rewrite <- Hc. destruct (search (client w1) _) as [r c]. cbn.
  rewrite Ht. auto.
Qed.

Lemma retry_ledger_blind (q : string) (offset lim : Z) (retries : nat) :
  forall (w1 w2 : @world CS),
  same_but_ledger w1 w2 ->
  fst (retry retries (search_call search q offset lim) w1)
  = fst (retry retries (search_call search q offset lim) w2)
  /\ same_but_ledger (snd (retry retries (search_call search q offset lim) w1))
       (snd (retry retries (search_call search q offset lim) w2)).
Proof.
  induction retries as [|n IH]; intros w1 w2 Hrel; cbn [retry];
    destruct (search_call_ledger_blind q offset lim w1 w2 Hrel) as [Hr Hrel1];
    destruct (search_call search q offset lim w1) as [r1 u1];
    destruct (search_call search q offset lim w2) as [r2 u2];
    cbn [fst snd] in *; subst r2; destruct r1 as [a|e]; auto.
Qed.

Lemma for_shows_ledger_blind (shows : list pyval) :
  forall (total : Z) (w1 w2 : @world CS),
  same_but_ledger w1 w2 ->
  fst (for_shows shows total w1) = fst (for_shows shows total w2)
  /\ same_but_ledger (snd (for_shows shows total w1))
       (snd (for_shows shows total w2)).
Proof.
  induction shows as [|show rest IH]; intros total w1 w2 Hrel; cbn [for_shows].
  - auto.
  - destruct (podcast_data_of show) as [d|e]; [|auto].
    destruct (save_podcast_ledger_blind d w1 w2 Hrel) as [Hr Hrel'].
    destruct (save_podcast d w1) as [r1 u1], (save_podcast d w2) as [r2 u2].
    cbn [fst snd] in *. subst r2.
    destruct r1 as [[]|e]; [apply IH; exact Hrel'|auto].
Qed.

Lemma while_loop_ledger_blind (fuel : nat) (q : string) :
  forall (offset total : Z) (w1 w2 : @world CS),
  same_but_ledger w1 w2 ->
  fst (while_loop search fuel q offset total w1)
  = fst (while_loop search fuel q offset total w2)
  /\ same_but_ledger (snd (while_loop search fuel q offset total w1))
       (snd (while_loop search fuel q offset total w2)).
Proof.
  induction fuel as [|fuel IH]; intros offset total w1 w2 Hrel;
    cbn [while_loop].
  - auto.
  - destruct (offset <? 1000); [|auto].
    assert (Hlog : same_but_ledger (log (EvFetch q offset) w1)
                     (log (EvFetch q offset) w2)).
    { destruct Hrel as (Hc & Hp & Hf & Ht). unfold same_but_ledger. cbn.
      rewrite Ht. auto. }
    unfold fetch_data, on_exception. simpl Nat.pred.
    destruct (retry_ledger_blind q offset limit 4 _ _ Hlog) as (Hr & Hrel1).
    destruct (retry 4 _ (log (EvFetch q offset) w1)) as [r1 u1].
    destruct (retry 4 _ (log (EvFetch q offset) w2)) as [r2 u2].
    cbn [fst snd] in *. subst r2.
    destruct r1 as [results|e]; [|auto].
    destruct (shows_of results) as [shows|e]; [|auto].
    destruct (negb (truthy shows)); [auto|].
    destruct (iter shows) as [items|e]; [|auto].
    destruct (for_shows_ledger_blind items total u1 u2 Hrel1) as [Hf Hrel2].
    destruct (for_shows items total u1) as [[res1 t1] v1].
    destruct (for_shows items total u2) as [[res2 t2] v2].
    cbn [fst snd] in *. injection Hf as <- <-.
    destruct res1 as [[s e]|]; [auto|].
    apply IH. exact Hrel2.
Qed.

Lemma process_query_ledger_blind (q : string) (w1 w2 : @world CS) :
  same_but_ledger w1 w2 ->
  fst (process_query search q w1) = fst (process_query search q w2)
  /\ same_but_ledger (snd (process_query search q w1))
       (snd (process_query search q w2)).
Proof.
  intros Hrel. unfold process_query.
  destruct (while_loop_ledger_blind loop_fuel q 0 0 w1 w2 Hrel) as [Hl Hrel1].
  destruct (while_loop search loop_fuel q 0 0 w1) as [[[ex1 o1] t1] u1].
  destruct (while_loop search loop_fuel q 0 0 w2) as [[[ex2 o2] t2] u2].
  cbn [fst snd] in *. injection Hl as <- <- <-.
  destruct (mark_ledger_blind q u1 u2 Hrel1) as [Hm Hrel2].
  destruct (mark_query_completed q u1) as [r1 v1].
  destruct (mark_query_completed q u2) as [r2 v2].
  cbn [fst snd] in *. subst r2. destruct r1; auto.
Qed.

(** X15: [process_query] never reads the completion ledger.  From two
    worlds that differ in the ledger only it returns the same count, makes
    the same calls in the same order and leaves the same podcasts. *)
Theorem query_ignores_the_ledger (q : string) (w1 w2 : @world CS) :
  same_but_ledger w1 w2 ->
  fst (process_query search q w1) = fst (process_query search q w2)
  /\ same_but_ledger (snd (process_query search q w1))
       (snd (process_query search q w2)).
Proof. apply process_query_ledger_blind. Qed.



(** X18: a show that cannot be written ends its page.  With a working
    storage, the persistable shows before it are written and counted, the
    exception is reported, and the shows after it are not looked at: the
    outcome is the same whatever follows. *)
Theorem bad_show_ends_the_page (good rest : list pyval) (bad : pyval)
  (total : Z) (w : @world CS) :
  io_faults w = [] ->
  forallb persistable good = true ->
  persistable bad = false ->
  for_shows (good ++ bad :: rest) total w = for_shows (good ++ [bad]) total w
  /\ exists s e w',
       for_shows (good ++ bad :: rest) total w
       = (Some (s, e), total + Z.of_nat (length good), w')
       /\ podcasts (db w') = podcasts (db (snd (for_shows good total w))).
Proof.
  revert total w.
  induction good as [|show good IH]; intros total w Hio Hgood Hbad.
  - cbn [app for_shows length]. unfold persistable in Hbad.
    destruct (podcast_data_of bad) as [d|e].
    + destruct (podcast_row d) as [row|e] eqn:Hrow; [discriminate|].
      unfold save_podcast.
      rewrite transaction_works by (simpl; rewrite Hio; reflexivity).
      rewrite Hrow. cbn [rbind]. split; [reflexivity|].
      do 3 eexists. split; [rewrite Z.add_0_r; reflexivity|reflexivity].
    + split; [reflexivity|].
      do 3 eexists. split; [rewrite Z.add_0_r; reflexivity|reflexivity].
  - cbn [forallb] in Hgood. apply andb_prop in Hgood.
    destruct Hgood as [Hshow Hgood].
    unfold persistable in Hshow.
    cbn [app for_shows length].
    destruct (podcast_data_of show) as [d|e]; [|discriminate].
    destruct (podcast_row d) as [row|e] eqn:Hrow; [|discriminate].
    unfold save_podcast.
    rewrite transaction_works by (simpl; rewrite Hio; reflexivity).
    rewrite Hrow. cbn [rbind].
    match goal with |- context [for_shows (good ++ bad :: rest) ?t ?w1] =>
      assert (Hio1 : io_faults w1 = []) by (simpl; rewrite Hio; reflexivity);
      destruct (IH t w1 Hio1 Hgood Hbad) as (Heq & s & e & w' & Hfor & Hp)
    end.
    split; [exact Heq|].
    exists s, e, w'. split; [|exact Hp].
    rewrite Hfor. do 2 f_equal. rewrite Nat2Z.inj_succ. lia.
Qed.

End LedgerBlind.

(** ** The further properties at concrete inputs *)

Lemma mark_touches_one_query_witness :
  "abc" <> "xyz"
  /\ complete_in "abc" (db (snd (mark_query_completed "xyz" resumed)))
     = complete_in "abc" (db resumed)
  /\ podcasts (db (snd (mark_query_completed "xyz" resumed)))
     = podcasts (db resumed).
Proof.
  assert (Hneq : "abc" <> "xyz") by discriminate.
  split; [exact Hneq|].
  exact (proj2 (mark_touches_one_query "xyz" "abc" resumed Hneq)).
Defined.


Lemma resumed_database_ok : database_ok (db resumed).
Proof.
  split.
  - unfold podcasts_ok. cbn. repeat constructor. intros [].
  - unfold ledger_ok. cbn. repeat constructor. intros [].
Defined.

Lemma process_query_keeps_database_witness :
  let stub := one_page "xyz" (page_of [complete_show "show2" "a podcast"]) in
  let w' := snd (process_query stub "xyz" resumed) in
  database_ok (db resumed) /\ database_ok (db w')
  /\ complete_in "abc" (db resumed) = true /\ complete_in "abc" (db w') = true
  /\ In (SText "show1") (keys (podcasts (db w'))).
Proof.
  cbv zeta.
  destruct (process_query_keeps_database
              (one_page "xyz" (page_of [complete_show "show2" "a podcast"]))
              "xyz" resumed) as (Hok & Hdone & Hkey).
  split; [exact resumed_database_ok|].
  split; [exact (Hok resumed_database_ok)|].
  split; [reflexivity|].
  split; [exact (Hdone "abc" eq_refl)|].
  apply Hkey. cbn. left. reflexivity.
Defined.



Lemma empty_first_page_witness :
  let stub := one_page "aab" (page_of [complete_show "show1" "a podcast"]) in
  stub (client (fresh tt)) (args_of "aaa" 0) = (Ok (page_of []), tt)
  /\ shows_of (page_of []) = Ok (PList [])
  /\ truthy (PList []) = false
  /\ fst (process_query stub "aaa" (fresh tt)) = Ok 0.
Proof.
  cbv zeta.
  assert (H1 : one_page "aab" (page_of [complete_show "show1" "a podcast"])
                 (client (fresh tt)) (args_of "aaa" 0) = (Ok (page_of []), tt))
    by reflexivity.
  assert (H2 : shows_of (page_of []) = Ok (PList [])) by reflexivity.
  assert (H3 : truthy (PList []) = false) by reflexivity.
  split; [exact H1|]. split; [exact H2|]. split; [exact H3|].
  destruct (empty_first_page _ "aaa" (fresh tt) _ _ _ H1 H2 H3)
    as (_ & _ & _ & _ & _ & Hr).
  exact (proj1 (Hr eq_refl)).
Defined.

Lemma unreachable_is_down (e : exn) :
  forall c a, exists e' c', unreachable e c a = (Raise e', c').
Proof. intros c a. exists e, (S c). reflexivity. Defined.

Lemma unreachable_client_witness :
  let stub := unreachable (RequestException "timeout") in
  let w := {| client := 0%nat; db := empty_db; io_faults := []; trace := [] |} in
  (forall c a, exists e c', stub c a = (Raise e, c'))
  /\ fst (process_query stub "abc" w) = Ok 0
  /\ complete_in "abc" (db (snd (process_query stub "abc" w))) = true.
Proof.
  cbv zeta. split; [apply unreachable_is_down|].
  destruct (unreachable_client (unreachable (RequestException "timeout")) "abc"
              {| client := 0%nat; db := empty_db; io_faults := []; trace := [] |}
              (unreachable_is_down _)) as (_ & _ & _ & _ & Hr).
  exact (Hr eq_refl).
Defined.

Lemma resumed_same_but_ledger : same_but_ledger resumed resumed_unmarked.
Proof. repeat split. Defined.

Lemma query_ignores_the_ledger_witness :
  let stub := one_page "abc" (page_of [complete_show "show1" "second name"]) in
  same_but_ledger resumed resumed_unmarked
  /\ complete_in "abc" (db resumed) = true
  /\ complete_in "abc" (db resumed_unmarked) = false
  /\ fst (process_query stub "abc" resumed)
     = fst (process_query stub "abc" resumed_unmarked).
Proof.
  cbv zeta. split; [exact resumed_same_but_ledger|].
  split; [reflexivity|]. split; [reflexivity|].
  exact (proj1 (query_ignores_the_ledger
                  (one_page "abc" (page_of [complete_show "show1" "second name"]))
                  "abc" resumed resumed_unmarked resumed_same_but_ledger)).
Defined.



Lemma bad_show_ends_the_page_witness :
  let good := [complete_show "show1" "one"] in
  let bad := bare_show "show2" "two" in
  let rest := [complete_show "show3" "three"] in
  io_faults (fresh tt) = []
  /\ forallb persistable good = true
  /\ persistable bad = false
  /\ for_shows (good ++ bad :: rest) 0 (fresh tt)
     = for_shows (good ++ [bad]) 0 (fresh tt).
Proof.
  cbv zeta. split; [reflexivity|]. split; [reflexivity|].
  split; [reflexivity|].
  exact (proj1 (bad_show_ends_the_page
                  [complete_show "show1" "one"]
                  [complete_show "show3" "three"]
                  (bare_show "show2" "two") 0 (fresh tt)
                  eq_refl eq_refl eq_refl)).
Defined.
